(** * am::parallel_task_queue — a verified model

    Shallow embedding of [include/parallel_task_queue.h]: the queue object
    with its waiting deque, its atomics and its worker vector, the
    submission and query member functions, the task executor, and the
    scheduler thread as a small-step machine interleaved with the client
    calls and the worker threads. *)

From stdpp Require Import base list numbers.
From Stdlib Require Import ZArith Lia.

Open Scope Z_scope.

(** ** Integer types of the source

    [running_] is a [std::atomic_int]; [running()] and [waiting()] return
    [std::size_t]; [concurrency()] returns [unsigned int]; [busy()] compares
    against [int(workers_.size())].  The conversions are written out for the
    usual data model (32-bit [int], 64-bit [size_t]). *)

Definition int_wrap (z : Z) : Z := (z + 2 ^ 31) `mod` 2 ^ 32 - 2 ^ 31.
Definition to_unsigned (z : Z) : Z := z `mod` 2 ^ 32.
Definition to_size_t (z : Z) : Z := z `mod` 2 ^ 64.

(** ** The task parameter

    [Task] is the template parameter.  The header needs [Task::operator()()]
    (called by the executor) and [operator==] (used by [std::find] in
    [try_remove]).  A call of a task either returns or exits by an
    exception; nothing else about it is visible to the queue. *)

Class TaskType (Task : Type) := {
  task_eq : Task -> Task -> bool;
  task_throws : Task -> bool
}.

Section ParallelTaskQueue.

Context {Task : Type} `{TaskType Task}.

(** ** The worker unit

    Modelled from the spec: the worker [task_thread<task_executor>]
    ([task_thread.h] is included by the header but is not among the
    sources).  Section 4.2 of the spec gives its contract: [available()]
    holds only when the worker is idle; [try_assign] moves an idle worker to
    busy and starts the executor asynchronously, and returns [false] when
    the worker is not available at call time; on finishing, the worker
    returns to idle by itself.  The executor it runs is the source's
    [task_executor] (lines 35-53), whose progress is kept in the worker's
    state: [Busy t] before [task_()] has finished, [Ran] between the return
    of [task_()] and [--queue_->running_], [Done] once [operator()] has been
    left (normally or by an exception). *)

Inductive task_thread : Type :=
| Idle
| Busy (t : Task)
| Ran
| Done.

Definition available (w : task_thread) : bool :=
  match w with Idle => true | _ => false end.

Definition try_assign (w : task_thread) (t : Task) : option task_thread :=
  match w with Idle => Some (Busy t) | _ => None end.

(** ** The queue object (lines 268-276)

    The mutexes, the condition variable and the scheduler's [std::thread]
    carry no data; the scheduler's position is part of [system] below. *)

Record parallel_task_queue : Type := mk_queue {
  active_ : bool;
  hasWaiting_ : bool;
  running_ : Z;
  waiting_ : list Task;
  workers_ : list task_thread
}.

Definition store_active (b : bool) (q : parallel_task_queue) :=
  mk_queue b (hasWaiting_ q) (running_ q) (waiting_ q) (workers_ q).
Definition store_hasWaiting (b : bool) (q : parallel_task_queue) :=
  mk_queue (active_ q) b (running_ q) (waiting_ q) (workers_ q).
Definition store_running (r : Z) (q : parallel_task_queue) :=
  mk_queue (active_ q) (hasWaiting_ q) r (waiting_ q) (workers_ q).
Definition set_waiting (l : list Task) (q : parallel_task_queue) :=
  mk_queue (active_ q) (hasWaiting_ q) (running_ q) l (workers_ q).
Definition set_workers (ws : list task_thread) (q : parallel_task_queue) :=
  mk_queue (active_ q) (hasWaiting_ q) (running_ q) (waiting_ q) ws.

(** Constructor (lines 60-71): [workers_(concurrency)] builds that many
    default-constructed workers; no check is made on the argument. *)
Definition construct (concurrency : nat) : parallel_task_queue :=
  mk_queue true false 0 [] (replicate concurrency Idle).

(** ** Submission (lines 95-135) *)

(** [enqueue(const task_type&)] and [enqueue(task_type&&)]: [push_back]. *)
Definition enqueue (t : Task) (q : parallel_task_queue) :=
  store_hasWaiting true (set_waiting (waiting_ q ++ [t]) q).

(** [enqueue(first, last)]: [waiting_.insert(begin(waiting_), first, last)]. *)
Definition enqueue_range (ts : list Task) (q : parallel_task_queue) :=
  store_hasWaiting true (set_waiting (ts ++ waiting_ q) q).

(** [enqueue(initializer_list)]: [waiting_.insert(waiting_.end(), il)]. *)
Definition enqueue_il (il : list Task) (q : parallel_task_queue) :=
  store_hasWaiting true (set_waiting (waiting_ q ++ il) q).

(** [enqueue_emplace(args...)]: [emplace_back]; [t] is the task that the
    arguments construct. *)
Definition enqueue_emplace (t : Task) (q : parallel_task_queue) :=
  store_hasWaiting true (set_waiting (waiting_ q ++ [t]) q).

(** ** Removal (lines 141-161) *)

(** [std::find(first, last, t)]: position of the first element [x] with
    [x == t]; the length of the list stands for [end()]. *)
Fixpoint find (t : Task) (l : list Task) : nat :=
  match l with
  | [] => 0%nat
  | x :: l' => if task_eq x t then 0%nat else S (find t l')
  end.

Definition try_remove (t : Task) (q : parallel_task_queue)
  : bool * parallel_task_queue :=
  let it := find t (waiting_ q) in
  if (it <? length (waiting_ q))%nat then
    let q1 := set_waiting (delete it (waiting_ q)) q in
    match waiting_ q1 with
    | [] => (true, store_hasWaiting false q1)
    | _ :: _ => (true, q1)
    end
  else (false, q).

Definition clear (q : parallel_task_queue) :=
  store_hasWaiting false (set_waiting [] q).

(** ** Queries (lines 165-208) *)

Definition concurrency (q : parallel_task_queue) : Z :=
  to_unsigned (Z.of_nat (length (workers_ q))).

Definition empty (q : parallel_task_queue) : bool := negb (hasWaiting_ q).

Definition waiting (q : parallel_task_queue) : Z :=
  Z.of_nat (length (waiting_ q)).

Definition running (q : parallel_task_queue) : Z := to_size_t (running_ q).

Definition busy (q : parallel_task_queue) : bool :=
  int_wrap (Z.of_nat (length (workers_ q))) <=? running_ q.

Definition complete (q : parallel_task_queue) : bool :=
  empty q && (running q <? 1).

(** ** Blocking wait (lines 215-219)

    [while(!empty() || running()) isDone_.wait(lock);].  The condition is
    evaluated once on entry and once after every wakeup of
    [isDone_.wait], whatever caused the wakeup.  Its two atomic loads are
    not taken under [enqueueMtx_], so an evaluation sees the queue [q1] at
    the load of [hasWaiting_] and the queue [q2] at the later load of
    [running_].  [wait obs] takes these pairs for the successive
    evaluations and gives the number of wakeups after which the call
    returns, or [None] when it is still blocked after the last one
    listed. *)

Definition wait_condition (q1 q2 : parallel_task_queue) : bool :=
  negb (empty q1) || negb (running q2 =? 0).

Fixpoint wait (obs : list (parallel_task_queue * parallel_task_queue))
  : option nat :=
  match obs with
  | [] => None
  | (q1, q2) :: later =>
      if wait_condition q1 q2 then S <$> wait later else Some 0%nat
  end.

(** What lets [wait] leave its loop: the flag was clear when it was loaded
    and the count was zero when it was loaded. *)
Definition observed_complete (o : parallel_task_queue * parallel_task_queue)
  : Prop :=
  empty o.1 = true /\ running o.2 = 0.

(** ** The task executor (lines 45-48)

    [task_(); --queue_->running_;].  When [task_()] exits by an exception
    the decrement is not reached. *)

Definition executor_run (t : Task) : task_thread :=
  if task_throws t then Done else Ran.

Definition executor_report (q : parallel_task_queue) :=
  store_running (int_wrap (running_ q - 1)) q.

Definition task_executor_call (t : Task) (q : parallel_task_queue) :=
  match executor_run t with
  | Ran => executor_report q
  | _ => q
  end.

(** ** The scheduler thread (lines 225-264)

    [schedule] and [try_assign_tasks] run on their own thread, so they are
    given as a machine whose positions are the points of the two functions
    between which another thread can act.  [enqueueMtx_] is held by the
    scheduler exactly at [SAccepted] and [SElseBusy]; every other locked
    region of the header is entered and left within one step. *)

Inductive sched_pc : Type :=
| SWhile                 (* 253: while(active_.load())                      *)
| SIfEmpty               (* 254: if(!empty() ...                            *)
| SIfBusy                (* 254:            ... && !busy())                  *)
| SElseIf                (* 257: else if(running() < 1)                     *)
| SNotify                (* 258-261: lock; if(empty() && running() < 1) ... *)
| SFor (i : nat)         (* 227-228: worker i of the range-for; available() *)
| SLock (i : nat)        (* 229-234: lock; waiting_.empty()?; worker(...)   *)
| SAccepted (i : nat)    (* 235-240: ++running_; pop_front(); empty()?      *)
| SElseBusy (i : nat)    (* 241-243: else if(busy()) return;                *)
| SExit.                 (* the while loop has been left                    *)

Record system : Type := mk_system {
  sq : parallel_task_queue;
  spc : sched_pc
}.

Definition lock_held (pc : sched_pc) : bool :=
  match pc with SAccepted _ | SElseBusy _ => true | _ => false end.

(** Lines 229-234 at worker [w]: the outcome of the locked prefix of the
    loop body. *)
Inductive assign_result : Type :=
| QueueEmpty (q : parallel_task_queue)   (* 230-233 *)
| Accepted (w' : task_thread)            (* 234 true: the executor is running *)
| Rejected.                              (* 234 false *)

Definition assign_front (w : task_thread) (q : parallel_task_queue)
  : assign_result :=
  match waiting_ q with
  | [] => QueueEmpty (store_hasWaiting false q)
  | t :: _ =>
      match try_assign w t with
      | Some w' => Accepted w'
      | None => Rejected
      end
  end.

(** Lines 235-236. *)
Definition count_and_pop (q : parallel_task_queue) :=
  set_waiting (tail (waiting_ q)) (store_running (int_wrap (running_ q + 1)) q).

Definition schedule_step (s : system) : option system :=
  let q := sq s in
  match spc s with
  | SWhile => Some (mk_system q (if active_ q then SIfEmpty else SExit))
  | SIfEmpty => Some (mk_system q (if negb (empty q) then SIfBusy else SElseIf))
  | SIfBusy => Some (mk_system q (if negb (busy q) then SFor 0 else SElseIf))
  | SElseIf => Some (mk_system q (if running q <? 1 then SNotify else SWhile))
  | SNotify => Some (mk_system q SWhile)
  | SFor i =>
      match workers_ q !! i with
      | None => Some (mk_system q SWhile)
      | Some w => Some (mk_system q (if available w then SLock i else SFor (S i)))
      end
  | SLock i =>
      match workers_ q !! i with
      | None => None   (* [SLock i] is entered from [SFor i], worker [i] exists *)
      | Some w =>
          match assign_front w q with
          | QueueEmpty q' => Some (mk_system q' SWhile)
          | Accepted w' => Some (mk_system (set_workers (<[i:=w']> (workers_ q)) q) (SAccepted i))
          | Rejected => Some (mk_system q (SFor (S i)))
          end
      end
  | SAccepted i =>
      let q' := count_and_pop q in
      match waiting_ q' with
      | [] => Some (mk_system (store_hasWaiting false q') SWhile)
      | _ :: _ => Some (mk_system q' (SElseBusy i))
      end
  | SElseBusy i => Some (mk_system q (if busy q then SWhile else SFor (S i)))
  | SExit => None
  end.

(** ** Worker threads

    One step of worker [i]'s own thread: run the task of the executor it was
    given, report its completion (line 47), or return to idle. *)
Definition worker_step (i : nat) (q : parallel_task_queue)
  : option parallel_task_queue :=
  match workers_ q !! i with
  | Some (Busy t) => Some (set_workers (<[i:=executor_run t]> (workers_ q)) q)
  | Some Ran => Some (set_workers (<[i:=Done]> (workers_ q)) (executor_report q))
  | Some Done => Some (set_workers (<[i:=Idle]> (workers_ q)) q)
  | _ => None
  end.

(** ** Client calls and the interleaving *)

Inductive client_call : Type :=
| CallEnqueue (t : Task)
| CallEnqueueRange (ts : list Task)
| CallEnqueueIL (il : list Task)
| CallEnqueueEmplace (t : Task)
| CallTryRemove (t : Task)
| CallClear.

Definition client_step (c : client_call) (q : parallel_task_queue) :=
  match c with
  | CallEnqueue t => enqueue t q
  | CallEnqueueRange ts => enqueue_range ts q
  | CallEnqueueIL il => enqueue_il il q
  | CallEnqueueEmplace t => enqueue_emplace t q
  | CallTryRemove t => (try_remove t q).2
  | CallClear => clear q
  end.

Inductive label : Type :=
| Client (c : client_call)   (* a caller thread runs one locked member function *)
| Sched                      (* the scheduler thread moves to its next position *)
| Work (i : nat)             (* worker i's thread takes its next step *)
| Deactivate.                (* line 83 of the destructor: active_.store(false) *)

Definition step (l : label) (s : system) : option system :=
  match l with
  | Client c =>
      if lock_held (spc s) then None
      else Some (mk_system (client_step c (sq s)) (spc s))
  | Sched => schedule_step s
  | Work i => (fun q' => mk_system q' (spc s)) <$> worker_step i (sq s)
  | Deactivate => Some (mk_system (store_active false (sq s)) (spc s))
  end.

Fixpoint run (ls : list label) (s : system) : option system :=
  match ls with
  | [] => Some s
  | l :: ls' => match step l s with Some s' => run ls' s' | None => None end
  end.

Definition initial (concurrency : nat) : system :=
  mk_system (construct concurrency) SWhile.

(** The states the object can be in: those that the interleaving reaches
    from the constructed one.  [reachable_by allowed] keeps to the steps
    that [allowed] admits in the state where they are taken. *)
Inductive reachable_by (allowed : system -> label -> Prop) (c : nat)
  : system -> Prop :=
| reachable_initial : reachable_by allowed c (initial c)
| reachable_step l s s' :
    reachable_by allowed c s -> allowed s l -> step l s = Some s' ->
    reachable_by allowed c s'.

Definition reachable : nat -> system -> Prop := reachable_by (fun _ _ => True).

(** ** Vocabulary of the properties *)

(** The has-waiting flag says exactly whether a task is waiting. *)
Definition flag_exact (q : parallel_task_queue) : Prop :=
  hasWaiting_ q = match waiting_ q with [] => false | _ :: _ => true end.

(** A non-empty waiting queue has the flag set. *)
Definition flag_covers (q : parallel_task_queue) : Prop :=
  waiting_ q <> [] -> hasWaiting_ q = true.

(** Every step but a batch enqueue of an empty sequence onto an empty
    waiting queue. *)
Definition fills_queue (s : system) (l : label) : Prop :=
  match l with
  | Client (CallEnqueueRange []) | Client (CallEnqueueIL []) =>
      waiting_ (sq s) <> []
  | _ => True
  end.

(** What a step does to the counter [running_]: the scheduler's step out of
    [SAccepted] is the [++running_] of line 235, a worker's step out of
    [Ran] is the [--queue_->running_] of line 47. *)
Definition running_delta (l : label) (s : system) : Z :=
  match l with
  | Sched => match spc s with SAccepted _ => 1 | _ => 0 end
  | Work i => match workers_ (sq s) !! i with Some Ran => -1 | _ => 0 end
  | _ => 0
  end.

(** Workers holding an executor that has not yet left [operator()]. *)
Definition executing (w : task_thread) : Z :=
  match w with Busy _ | Ran => 1 | _ => 0 end.

Fixpoint in_flight (ws : list task_thread) : Z :=
  match ws with
  | [] => 0
  | w :: ws' => executing w + in_flight ws'
  end.

(** [int(workers_.size())], the bound that [busy()] compares with. *)
Definition pool_int (q : parallel_task_queue) : Z :=
  int_wrap (Z.of_nat (length (workers_ q))).

(** The scheduler stands between an accepted hand-over and its
    [++running_]. *)
Definition pending (pc : sched_pc) : Z :=
  match pc with SAccepted _ => 1 | _ => 0 end.

(** The scheduler is inside the range-for with [busy()] last seen false. *)
Definition scanning (pc : sched_pc) : bool :=
  match pc with SFor _ | SLock _ | SAccepted _ => true | _ => false end.

(** The scheduler is outside [try_assign_tasks]. *)
Definition outside_pass (pc : sched_pc) : bool :=
  match pc with
  | SWhile | SIfEmpty | SIfBusy | SElseIf | SNotify | SExit => true
  | _ => false
  end.

(** What every reachable state satisfies. *)
Record invariant (c : nat) (s : system) : Prop := mk_invariant {
  inv_pool : length (workers_ (sq s)) = c;
  inv_upper : running_ (sq s) <= Z.max 0 (pool_int (sq s));
  inv_room : scanning (spc s) = true -> running_ (sq s) < pool_int (sq s);
  inv_lower : in_flight (workers_ (sq s)) <= running_ (sq s) + pending (spc s);
  inv_front : lock_held (spc s) = true -> waiting_ (sq s) <> [];
  inv_flag : flag_covers (sq s)
}.

(** ** Further vocabulary: signalling, failures, progress *)

(** Lines 258-261: at [SNotify] the scheduler calls [isDone_.notify_all()]
    iff [empty() && (running() < 1)]. *)
Definition notifies (s : system) : bool :=
  match spc s with
  | SNotify => empty (sq s) && (running (sq s) <? 1)
  | _ => false
  end.

(** The step is a worker's run of a task that exits by an exception. *)
Definition throws_at (l : label) (s : system) : Z :=
  match l with
  | Work i =>
      match workers_ (sq s) !! i with
      | Some (Busy t) => if task_throws t then 1 else 0
      | _ => 0
      end
  | _ => 0
  end.

(** Number of task runs that exit by an exception along the run of [ls]
    from [s]. *)
Fixpoint thrown (ls : list label) (s : system) : Z :=
  match ls with
  | [] => 0
  | l :: ls' =>
      match step l s with
      | Some s' => throws_at l s + thrown ls' s'
      | None => 0
      end
  end.

(** Number of scheduler steps in a run. *)
Fixpoint sched_steps (ls : list label) : nat :=
  match ls with
  | [] => 0%nat
  | Sched :: ls' => S (sched_steps ls')
  | _ :: ls' => sched_steps ls'
  end.

(** The step is a call of one of the enqueue overloads. *)
Definition submits (l : label) : bool :=
  match l with
  | Client (CallEnqueue _) | Client (CallEnqueueRange _)
  | Client (CallEnqueueIL _) | Client (CallEnqueueEmplace _) => true
  | _ => false
  end.

(** How many steps the scheduler can still take, in a pool of [c] workers,
    once [active_] is false. *)
Definition sched_measure (c : nat) (pc : sched_pc) : nat :=
  match pc with
  | SExit => 0
  | SWhile => 1
  | SNotify => 2
  | SElseIf => 3
  | SElseBusy i => 4 * (c - i) - 1
  | SAccepted i => 4 * (c - i)
  | SLock i => 4 * (c - i) + 1
  | SFor i => 4 * (c - i) + 2
  | SIfBusy => 4 * c + 4
  | SIfEmpty => 4 * c + 5
  end%nat.

(** Where the scheduler stands agrees with the pool and with [active_]. *)
Record sched_invariant (s : system) : Prop := mk_sched_invariant {
  sinv_lock : forall i, spc s = SLock i -> workers_ (sq s) !! i = Some Idle;
  sinv_index : forall i, spc s = SAccepted i \/ spc s = SElseBusy i ->
                         (i < length (workers_ (sq s)))%nat;
  sinv_exit : spc s = SExit -> active_ (sq s) = false
}.

(** ** Further vocabulary: the hand-over and the states on a run *)

(** The system right after lines 234-240 have handed the front task [t] to
    worker [j] of queue [q], whose waiting queue was [t :: rest]. *)
Definition handed_over (j : nat) (t : Task) (rest : list Task)
  (q : parallel_task_queue) : system :=
  mk_system
    (mk_queue (active_ q)
              (match rest with [] => false | _ :: _ => hasWaiting_ q end)
              (int_wrap (running_ q + 1)) rest
              (<[j:=Busy t]> (workers_ q)))
    (match rest with [] => SWhile | _ :: _ => SElseBusy j end).

(** The states a run goes through, the first one included. *)
Fixpoint trace (ls : list label) (s : system) : list system :=
  s :: match ls with
       | [] => []
       | l :: ls' =>
           match step l s with
           | Some s' => trace ls' s'
           | None => []
           end
       end.

End ParallelTaskQueue.

Arguments task_thread : clear implicits.
Arguments parallel_task_queue : clear implicits.
Arguments system : clear implicits.
Arguments client_call : clear implicits.
Arguments label : clear implicits.

(** Tasks for the concrete runs below: numbered tasks compared by number,
    task 0 being the one that exits by an exception. *)
#[export] Instance nat_task : TaskType nat := {
  task_eq := Nat.eqb;
  task_throws := fun n => (n =? 0)%nat
}.

(** One task is enqueued, the scheduler hands it to worker 0, counts it and
    pops it. *)
Definition dispatch_first (t : nat) : list (label nat) :=
  [Client (CallEnqueue t); Sched; Sched; Sched; Sched; Sched; Sched].

(** The failing task 0 is dispatched; worker 0 runs it and returns to idle. *)
Definition failing_task_run : list (label nat) :=
  dispatch_first 0%nat ++ [Work 0%nat; Work 0%nat].

(** Task 1 is handed to worker 0, which runs it and reports before the
    scheduler has reached [++running_]. *)
Definition early_report_run : list (label nat) :=
  [Client (CallEnqueue 1%nat); Sched; Sched; Sched; Sched; Sched;
   Work 0%nat; Work 0%nat].

(** Task 1 is enqueued alone, then the range [2; 3], then the scheduler
    makes its first hand-over. *)
Definition range_after_single_run : list (label nat) :=
  [Client (CallEnqueue 1%nat); Client (CallEnqueueRange [2; 3]%nat);
   Sched; Sched; Sched; Sched; Sched; Sched].

(** Task 5 runs to completion on a pool of one worker. *)
Definition one_task_run : list (label nat) :=
  dispatch_first 5%nat ++ [Work 0%nat; Work 0%nat; Work 0%nat].

(** * Properties *)

Section Submission.

Context {Task : Type} `{TaskType Task}.
Implicit Types (q : parallel_task_queue Task) (t : Task) (ts : list Task).

(** ** Where the enqueue overloads put their tasks *)

Lemma enqueue_waiting t q : waiting_ (enqueue t q) = waiting_ q ++ [t].
Proof. reflexivity. Qed.

Lemma enqueue_emplace_waiting t q :
  waiting_ (enqueue_emplace t q) = waiting_ q ++ [t].
Proof. reflexivity. Qed.

Lemma enqueue_il_waiting ts q : waiting_ (enqueue_il ts q) = waiting_ q ++ ts.
Proof. reflexivity. Qed.

Lemma enqueue_range_waiting ts q :
  waiting_ (enqueue_range ts q) = ts ++ waiting_ q.
Proof. reflexivity. Qed.

(** ** [std::find] *)

Lemma find_le t l : (find t l <= length l)%nat.
Proof.
  induction l as [|x l IH]; simpl; [lia|].
  destruct (task_eq x t); lia.
Qed.

(** Below the position found, nothing compares equal to [t]. *)
Lemma find_before t l j y :
  (j < find t l)%nat -> l !! j = Some y -> task_eq y t = false.
Proof.
  revert j. induction l as [|x l IH]; intros j Hj Hy; simpl in *; [lia|].
  destruct (task_eq x t) eqn:E; [lia|].
  destruct j as [|j]; simpl in Hy.
  - by inversion Hy; subst.
  - apply (IH j); [lia | done].
Qed.

(** A position inside the list is a hit. *)
Lemma find_hit t l :
  (find t l < length l)%nat ->
  exists x, l !! find t l = Some x /\ task_eq x t = true.
Proof.
  induction l as [|x l IH]; simpl; [lia|].
  destruct (task_eq x t) eqn:E; intros Hlt.
  - by exists x.
  - apply IH. lia.
Qed.

(** [end()] is returned exactly when nothing compares equal. *)
Lemma find_miss t l :
  find t l = length l <-> Forall (fun y => task_eq y t = false) l.
Proof.
  induction l as [|x l IH]; simpl.
  - split; [constructor | done].
  - destruct (task_eq x t) eqn:E.
    + split; [lia | by inversion 1; congruence].
    + split.
      * intros Hf. constructor; [done | apply IH; lia].
      * inversion 1; subst. f_equal. by apply IH.
Qed.

(** The list splits around the position found. *)
Lemma find_split t l :
  (find t l < length l)%nat ->
  exists l1 x l2,
    l = l1 ++ x :: l2 /\ length l1 = find t l /\ task_eq x t = true /\
    Forall (fun y => task_eq y t = false) l1 /\
    delete (find t l) l = l1 ++ l2.
Proof.
  induction l as [|x l IH]; simpl; [lia|].
  destruct (task_eq x t) eqn:E; intros Hlt.
  - exists [], x, l. by repeat split.
  - destruct IH as (l1 & y & l2 & -> & Hlen & Hy & Hl1 & Hdel); [lia|].
    exists (x :: l1), y, l2. simpl. rewrite Hdel.
    repeat split; [by rewrite Hlen | done | by constructor].
Qed.

(** ** Removal and clearing *)

(** C5. [try_remove(t)] removes the first waiting task that compares equal
    to [t] and returns [true] when there is one: the waiting queue
    [l1 ++ x :: l2], with [x] the first match, becomes [l1 ++ l2], the flag
    is cleared when that is empty, and nothing else changes.  When no
    waiting task compares equal to [t] it returns [false] and the queue
    object is unchanged. *)
Theorem try_remove_first_match t q :
  (Exists (fun x => task_eq x t = true) (waiting_ q) ->
   exists l1 x l2,
     waiting_ q = l1 ++ x :: l2 /\ task_eq x t = true /\
     Forall (fun y => task_eq y t = false) l1 /\
     (try_remove t q).1 = true /\
     waiting_ (try_remove t q).2 = l1 ++ l2 /\
     hasWaiting_ (try_remove t q).2
       = match l1 ++ l2 with [] => false | _ :: _ => hasWaiting_ q end /\
     running_ (try_remove t q).2 = running_ q /\
     workers_ (try_remove t q).2 = workers_ q /\
     active_ (try_remove t q).2 = active_ q) /\
  (Forall (fun y => task_eq y t = false) (waiting_ q) ->
   try_remove t q = (false, q)).
Proof.
  split.
  - intros Hex.
    assert (Hlt : (find t (waiting_ q) < length (waiting_ q))%nat).
    { pose proof (find_le t (waiting_ q)) as Hle.
      destruct (decide (find t (waiting_ q) = length (waiting_ q))) as [Heq|]; [|lia].
      apply find_miss in Heq. apply Exists_exists in Hex as (x & Hx & Hxt).
      rewrite Forall_forall in Heq. specialize (Heq x Hx). congruence. }
    destruct (find_split t (waiting_ q) Hlt) as (l1 & x & l2 & Hw & _ & Hx & Hl1 & Hdel).
    exists l1, x, l2. unfold try_remove.
    apply Nat.ltb_lt in Hlt. rewrite Hlt. simpl. rewrite Hdel.
    by destruct (l1 ++ l2).
  - intros Hall. apply find_miss in Hall. unfold try_remove.
    rewrite Hall, Nat.ltb_irrefl. done.
Qed.

End Submission.

Section Waiting.

Context {Task : Type} `{TaskType Task}.
Implicit Types (q : parallel_task_queue Task)
  (obs : list (parallel_task_queue Task * parallel_task_queue Task)).

Lemma running_nonneg q : 0 <= running q.
Proof. unfold running, to_size_t. apply Z.mod_pos_bound. lia. Qed.

Lemma complete_iff q :
  complete q = true <-> hasWaiting_ q = false /\ running q = 0.
Proof.
  unfold complete, empty. pose proof (running_nonneg q).
  rewrite andb_true_iff, negb_true_iff, Z.ltb_lt. intuition lia.
Qed.

Lemma wait_condition_false q1 q2 :
  wait_condition q1 q2 = false <-> observed_complete (q1, q2).
Proof.
  unfold wait_condition, observed_complete. simpl.
  rewrite orb_false_iff, !negb_false_iff, Z.eqb_eq. done.
Qed.

(** Evaluated on one state of the queue, the loop condition of [wait] is
    the negation of [complete()]. *)
Lemma wait_condition_complete q : wait_condition q q = negb (complete q).
Proof.
  unfold wait_condition, complete. rewrite negb_andb. f_equal.
  pose proof (running_nonneg q).
  destruct (running q =? 0) eqn:E1, (running q <? 1) eqn:E2; try done; lia.
Qed.

Lemma wait_returns obs k :
  wait obs = Some k <->
  (exists o, obs !! k = Some o /\ observed_complete o) /\
  (forall j o, (j < k)%nat -> obs !! j = Some o -> ~ observed_complete o).
Proof.
  revert k. induction obs as [|[q1 q2] obs IH]; intros k; simpl.
  - split; [done | by intros [(o & Ho & _) _]].
  - pose proof (wait_condition_false q1 q2) as Hc.
    destruct (wait_condition q1 q2); simpl.
    + assert (Hn : ~ observed_complete (q1, q2)) by (intros ?%Hc; done).
      destruct k as [|k].
      * split; [by destruct (wait obs) | ].
        by intros [(o & [= <-] & Ho) _].
      * destruct (IH k) as [IH1 IH2]. split.
        -- intros Hw. destruct (wait obs) as [k'|] eqn:E; [|done].
           simpl in Hw. injection Hw as ->.
           destruct (IH1 eq_refl) as [Hk Hbefore]. split; [done|].
           intros [|j] o Hj Ho; simpl in Ho; [by simplify_eq|].
           apply (Hbefore j); [lia | done].
        -- intros [Hk Hbefore]. rewrite IH2; [done|]. split; [done|].
           intros j o Hj Ho. apply (Hbefore (S j)); [lia | done].
    + assert (Hy : observed_complete (q1, q2)) by by apply Hc.
      split.
      * intros [= <-]. split; [by eexists | intros; lia].
      * intros [_ Hbefore]. destruct k as [|k]; [done|].
        by destruct (Hbefore 0%nat (q1, q2) ltac:(lia) eq_refl).
Qed.

Lemma wait_blocked obs :
  wait obs = None <-> Forall (fun o => ~ observed_complete o) obs.
Proof.
  induction obs as [|[q1 q2] obs IH]; simpl.
  - split; [constructor | done].
  - pose proof (wait_condition_false q1 q2) as Hc.
    destruct (wait_condition q1 q2); simpl.
    + assert (Hn : ~ observed_complete (q1, q2)) by (intros ?%Hc; done).
      destruct (wait obs); simpl.
      * split; [done|]. intros Hall.
        inversion Hall as [|? ? _ Hrest]; subst. by apply IH in Hrest.
      * split; [constructor; [done | by apply IH] | done].
    + split; [done|]. intros Hall.
      inversion Hall as [|? ? Hhd _]; subst. destruct Hhd. by apply Hc.
Qed.

End Waiting.

(** * The interleaved system *)

Section IntegerConversions.

Lemma int_wrap_range z : - 2 ^ 31 <= int_wrap z < 2 ^ 31.
Proof.
  unfold int_wrap. pose proof (Z.mod_pos_bound (z + 2 ^ 31) (2 ^ 32)). lia.
Qed.

Lemma int_wrap_small z : - 2 ^ 31 <= z < 2 ^ 31 -> int_wrap z = z.
Proof. intros Hz. unfold int_wrap. rewrite Z.mod_small; lia. Qed.

Lemma to_unsigned_small z : 0 <= z < 2 ^ 32 -> to_unsigned z = z.
Proof. intros Hz. unfold to_unsigned. rewrite Z.mod_small; lia. Qed.

Lemma to_unsigned_nonneg z : 0 <= to_unsigned z.
Proof. unfold to_unsigned. apply Z.mod_pos_bound. lia. Qed.

(** [int(n)] never exceeds [n] read as [unsigned int]. *)
Lemma int_wrap_le_unsigned z : int_wrap z <= to_unsigned z.
Proof.
  unfold int_wrap, to_unsigned.
  replace (z + 2 ^ 31) with (z + 2 ^ 31 + 0) by lia.
  pose proof (Z.mod_pos_bound z (2 ^ 32) ltac:(lia)) as Hm.
  rewrite (Z.div_mod z (2 ^ 32)) at 1 by lia.
  replace (2 ^ 32 * (z `div` 2 ^ 32) + z `mod` 2 ^ 32 + 2 ^ 31 + 0)
    with (z `mod` 2 ^ 32 + 2 ^ 31 + (z `div` 2 ^ 32) * 2 ^ 32) by lia.
  rewrite Z.mod_add by lia.
  pose proof (Z.mod_le (z `mod` 2 ^ 32 + 2 ^ 31) (2 ^ 32) ltac:(lia) ltac:(lia)).
  lia.
Qed.

Lemma to_size_t_small z : 0 <= z < 2 ^ 64 -> to_size_t z = z.
Proof. intros Hz. unfold to_size_t. rewrite Z.mod_small; lia. Qed.

End IntegerConversions.

Section Interleaving.

Context {Task : Type} `{TaskType Task}.
Implicit Types (q : parallel_task_queue Task) (s : system Task)
  (w : task_thread Task) (ws : list (task_thread Task)) (l : label Task).

(** ** Counting the executors in flight *)

Lemma in_flight_nonneg ws : 0 <= in_flight ws.
Proof. induction ws as [|w ws IH]; simpl; [lia | destruct w; simpl; lia]. Qed.

Lemma in_flight_replicate n : in_flight (replicate n (@Idle Task)) = 0.
Proof. induction n as [|n IH]; simpl; [done | lia]. Qed.

Lemma in_flight_insert ws i w w' :
  ws !! i = Some w ->
  in_flight (<[i:=w']> ws) = in_flight ws - executing w + executing w'.
Proof.
  revert i. induction ws as [|w0 ws IH]; intros i Hi; [done|].
  destruct i as [|i]; simpl in *.
  - inversion Hi; subst. lia.
  - rewrite (IH i Hi). lia.
Qed.

Lemma try_assign_accepts w t w' :
  try_assign w t = Some w' -> w = Idle /\ w' = Busy t.
Proof. destruct w; simpl; intros [=]; by subst. Qed.

Lemma pool_int_range q : - 2 ^ 31 <= pool_int q < 2 ^ 31.
Proof. apply int_wrap_range. Qed.

(** ** The invariant holds initially and is kept by every thread *)

Lemma invariant_initial c : invariant c (@initial Task c).
Proof.
  constructor; simpl; try done.
  - apply length_replicate.
  - lia.
  - rewrite in_flight_replicate. lia.
  - by intros Hne.
Qed.

Lemma flag_covers_client c q :
  flag_covers q -> flag_covers (client_step c q).
Proof.
  unfold flag_covers. destruct c as [t|ts|il|t|t|]; simpl; try done.
  unfold try_remove.
  destruct (find t (waiting_ q) <? length (waiting_ q))%nat eqn:Hlt; [|done].
  simpl. destruct (delete (find t (waiting_ q)) (waiting_ q)) eqn:Hdel; simpl.
  - done.
  - intros Hq _. apply Hq. intros Hnil. rewrite Hnil in Hlt. done.
Qed.

Lemma client_step_frame c q :
  running_ (client_step c q) = running_ q /\
  workers_ (client_step c q) = workers_ q /\
  active_ (client_step c q) = active_ q.
Proof.
  destruct c as [t|ts|il|t|t|]; simpl; try done.
  unfold try_remove.
  destruct (find t (waiting_ q) <? length (waiting_ q))%nat; [|done].
  simpl. by destruct (delete _ _).
Qed.

Lemma invariant_client n c s :
  invariant n s -> lock_held (spc s) = false ->
  invariant n (mk_system (client_step c (sq s)) (spc s)).
Proof.
  intros [Hpool Hup Hroom Hlow Hfront Hflag] Hfree.
  destruct (client_step_frame c (sq s)) as (Hr & Hw & _).
  constructor; simpl; unfold pool_int in *; rewrite ?Hr, ?Hw; try done.
  - congruence.
  - by apply flag_covers_client.
Qed.

Lemma invariant_deactivate n s :
  invariant n s -> invariant n (mk_system (store_active false (sq s)) (spc s)).
Proof. intros [? ? ? ? ? ?]. by constructor. Qed.

Lemma invariant_work n i s q' :
  invariant n s -> worker_step i (sq s) = Some q' ->
  invariant n (mk_system q' (spc s)) /\
  running_ q' = running_ (sq s) + running_delta (Work i) s.
Proof.
  intros [Hpool Hup Hroom Hlow Hfront Hflag] Hstep.
  pose proof (pool_int_range (sq s)) as HK.
  pose proof (in_flight_nonneg (workers_ (sq s))) as Hnn.
  unfold worker_step in Hstep. unfold running_delta.
  destruct (workers_ (sq s) !! i) as [[|t| |]|] eqn:Hw; simplify_eq.
  - (* the task runs *)
    split; [|simpl; lia].
    constructor; simpl; unfold pool_int in *; simpl;
      rewrite ?length_insert, ?(in_flight_insert _ _ _ _ Hw); try done.
    unfold executor_run. destruct (task_throws t); simpl; lia.
  - (* the executor reports *)
    pose proof (in_flight_insert _ _ _ (@Done Task) Hw) as Hins.
    assert (Hpos : 1 <= in_flight (workers_ (sq s))).
    { clear -Hw. revert i Hw. induction (workers_ (sq s)) as [|w0 ws IH];
        intros [|i] Hi; simpl in *; try done.
      - inversion Hi; subst. pose proof (in_flight_nonneg ws). simpl. lia.
      - pose proof (IH i Hi). destruct w0; simpl; lia. }
    assert (Hp : 0 <= pending (spc s) <= 1) by (destruct (spc s); simpl; lia).
    assert (Hdec : int_wrap (running_ (sq s) - 1) = running_ (sq s) - 1).
    { apply int_wrap_small. lia. }
    split; [|simpl; rewrite Hdec; lia].
    constructor; simpl; unfold pool_int in *; simpl;
      rewrite ?length_insert, ?Hins, ?Hdec; simpl in *; try done; try lia.
    intros Hs. specialize (Hroom Hs). lia.
  - (* the worker returns to idle *)
    split; [|simpl; lia].
    constructor; simpl; unfold pool_int in *; simpl;
      rewrite ?length_insert, ?(in_flight_insert _ _ _ _ Hw); simpl; try done.
    lia.
Qed.

Lemma invariant_sched n s s' :
  invariant n s -> schedule_step s = Some s' ->
  invariant n s' /\
  running_ (sq s') = running_ (sq s) + running_delta Sched s.
Proof.
  intros [Hpool Hup Hroom Hlow Hfront Hflag] Hstep.
  pose proof (pool_int_range (sq s)) as HK.
  pose proof (in_flight_nonneg (workers_ (sq s))) as Hnn.
  unfold schedule_step in Hstep. unfold running_delta.
  destruct (spc s) as [| | | | |i|i|i|i|] eqn:Hpc; simpl in *.
  - (* 253 *) simplify_eq. split; [|simpl; lia].
    constructor; simpl; try done; try lia; by destruct (active_ (sq s)).
  - (* 254, empty() *) simplify_eq. split; [|simpl; lia].
    constructor; simpl; try done; try lia; by destruct (negb (empty (sq s))).
  - (* 254, busy() *) simplify_eq. split; [|simpl; lia].
    unfold busy. fold (pool_int (sq s)).
    destruct (pool_int (sq s) <=? running_ (sq s)) eqn:Hb; simpl;
      constructor; simpl; try done; try lia.
  - (* 257 *) simplify_eq. split; [|simpl; lia].
    constructor; simpl; try done; try lia; by destruct (running (sq s) <? 1).
  - (* 258-261 *) simplify_eq. split; [|simpl; lia].
    constructor; simpl; try done; lia.
  - (* 227-228 *)
    destruct (workers_ (sq s) !! i) as [w|]; simplify_eq; (split; [|simpl; lia]).
    + destruct (available w); constructor; simpl; try done; try lia;
        intros _; by apply Hroom.
    + constructor; simpl; try done; lia.
  - (* 229-234 *)
    destruct (workers_ (sq s) !! i) as [w|] eqn:Hw; [|done].
    unfold assign_front in Hstep.
    destruct (waiting_ (sq s)) as [|t rest] eqn:Hq.
    + simplify_eq. split; [|simpl; lia].
      constructor; simpl; try done; try lia.
      unfold flag_covers. simpl. by rewrite Hq.
    + destruct (try_assign w t) as [w'|] eqn:Ha; simplify_eq.
      * apply try_assign_accepts in Ha as [-> ->].
        split; [|simpl; lia].
        constructor; simpl; unfold pool_int in *; simpl;
          rewrite ?length_insert, ?(in_flight_insert _ _ _ _ Hw); simpl;
          try done; try lia.
        intros _. by rewrite Hq.
      * split; [|simpl; lia].
        constructor; simpl; try done; lia.
  - (* 235-240 *)
    specialize (Hroom eq_refl). specialize (Hfront eq_refl).
    assert (Hinc : int_wrap (running_ (sq s) + 1) = running_ (sq s) + 1).
    { apply int_wrap_small. lia. }
    destruct (waiting_ (sq s)) as [|t rest] eqn:Hq; [done|]. simpl in Hstep.
    destruct rest as [|t' rest]; simplify_eq; simpl;
      (split; [|rewrite Hinc; lia]).
    + constructor; simpl; unfold pool_int in *; simpl; rewrite ?Hinc;
        try done; try lia.
      unfold flag_covers. simpl. by rewrite Hq.
    + constructor; simpl; unfold pool_int in *; simpl; rewrite ?Hinc;
        try done; try lia.
      * intros _. by rewrite Hq.
      * unfold flag_covers in *. simpl. intros _. apply Hflag. by rewrite Hq.
  - (* 241-243 *) simplify_eq. split; [|simpl; lia].
    unfold busy. fold (pool_int (sq s)).
    destruct (pool_int (sq s) <=? running_ (sq s)) eqn:Hb; simpl;
      constructor; simpl; try done; try lia.
  - done.
Qed.

Lemma invariant_step n l s s' :
  invariant n s -> step l s = Some s' ->
  invariant n s' /\
  running_ (sq s') = running_ (sq s) + running_delta l s.
Proof.
  intros Hinv Hstep. destruct l as [c| |i|]; simpl in Hstep.
  - destruct (lock_held (spc s)) eqn:Hfree; simplify_eq.
    split; [by apply invariant_client|].
    simpl. destruct (client_step_frame c (sq s)) as (-> & _). lia.
  - by apply invariant_sched.
  - destruct (worker_step i (sq s)) as [q'|] eqn:Hw; simpl in Hstep; simplify_eq.
    by apply invariant_work.
  - simplify_eq. split; [by apply invariant_deactivate | simpl; lia].
Qed.

Lemma reachable_by_invariant allowed c s :
  reachable_by allowed c s -> invariant c s.
Proof.
  induction 1 as [|l s s' _ IH _ Hstep]; [apply invariant_initial|].
  by destruct (invariant_step c l s s' IH Hstep).
Qed.

Lemma reachable_by_weaken allowed c s :
  reachable_by allowed c s -> reachable c s.
Proof.
  induction 1 as [|l s s' _ IH _ Hstep]; [constructor|].
  by apply (reachable_step _ c l s).
Qed.

Lemma run_reachable_by allowed c ls s s' :
  reachable_by allowed c s -> run ls s = Some s' ->
  Forall (fun l => forall s0, allowed s0 l) ls ->
  reachable_by allowed c s'.
Proof.
  revert s. induction ls as [|l ls IH]; intros s Hs Hrun Hall; simpl in Hrun.
  - by simplify_eq.
  - destruct (step l s) as [s1|] eqn:Hstep; [|done].
    inversion Hall as [|? ? Hl Hls]; subst.
    apply (IH s1); [|done|done].
    by apply (reachable_step _ c l s).
Qed.

Lemma run_reachable c ls s' :
  run ls (initial c) = Some s' -> reachable c s'.
Proof.
  intros Hrun. apply (run_reachable_by _ c ls (initial c)); [constructor|done|].
  by apply Forall_forall.
Qed.

(** ** The has-waiting flag *)

Lemma flag_exact_covers q : flag_exact q -> flag_covers q.
Proof.
  unfold flag_exact, flag_covers. intros ->. by destruct (waiting_ q).
Qed.

Lemma flag_exact_empty q :
  flag_exact q -> (empty q = true <-> waiting q = 0).
Proof.
  unfold flag_exact, empty, waiting. intros ->.
  destruct (waiting_ q); simpl; split; try done; lia.
Qed.

(** A step that [fills_queue] admits leaves the flag exact when it was, and
    makes it exact whenever it changes the waiting queue. *)
Lemma flag_exact_step n l s s' :
  invariant n s -> step l s = Some s' -> fills_queue s l ->
  flag_exact (sq s) \/ waiting_ (sq s') <> waiting_ (sq s) ->
  flag_exact (sq s').
Proof.
  intros [_ _ _ _ Hfront Hflag] Hstep Hfill Hpre.
  unfold flag_exact, flag_covers in *.
  destruct l as [c| |i|]; simpl in Hstep.
  - destruct (lock_held (spc s)); simplify_eq. simpl in *.
    destruct c as [t|ts|il|t|t|]; simpl in *; try done.
    + by destruct (waiting_ (sq s)).
    + destruct ts; simpl; [by destruct (waiting_ (sq s)) | done].
    + destruct il; simpl; [|by destruct (waiting_ (sq s))].
      rewrite app_nil_r. by destruct (waiting_ (sq s)).
    + by destruct (waiting_ (sq s)).
    + unfold try_remove in *.
      destruct (find t (waiting_ (sq s)) <? length (waiting_ (sq s)))%nat eqn:Hlt;
        simpl in *; [|by destruct Hpre].
      destruct (delete (find t (waiting_ (sq s))) (waiting_ (sq s))); simpl; [done|].
      apply Hflag. intros Hnil. by rewrite Hnil in Hlt.
  - unfold schedule_step in Hstep.
    destruct (spc s) as [| | | | |i|i|i|i|] eqn:Hpc; simplify_eq; simpl in *;
      try (by destruct Hpre).
    + destruct (workers_ (sq s) !! i); simplify_eq; simpl in *; by destruct Hpre.
    + destruct (workers_ (sq s) !! i) as [w|]; [|done].
      unfold assign_front in Hstep.
      destruct (waiting_ (sq s)) as [|t rest] eqn:Hq; simplify_eq; simpl.
      * by rewrite Hq.
      * destruct (try_assign w t); simplify_eq; simpl in *; rewrite ?Hq;
          rewrite Hq in Hpre; by destruct Hpre.
    + specialize (Hfront eq_refl).
      destruct (waiting_ (sq s)) as [|t [|t' rest]] eqn:Hq; [done| |];
        simpl in Hstep; simplify_eq; simpl; rewrite ?Hq; simpl; [done|].
      by apply Hflag.
  - destruct (worker_step i (sq s)) as [q'|] eqn:Hw; simpl in Hstep; simplify_eq.
    unfold worker_step in Hw.
    destruct (workers_ (sq s) !! i) as [[|t| |]|]; simplify_eq; simpl in *;
      by destruct Hpre.
  - simplify_eq. simpl in *. by destruct Hpre.
Qed.

Lemma reachable_flag_exact c s :
  reachable_by fills_queue c s -> flag_exact (sq s).
Proof.
  induction 1 as [|l s s' Hs IH Hfill Hstep]; [done|].
  apply (flag_exact_step c l s s'); auto.
  by apply (reachable_by_invariant fills_queue).
Qed.

(** ** Completion and the flag *)

(** C3 (amended). In every reachable state [complete()] is true iff the
    has-waiting flag is clear and [running()] is zero; when it is true,
    [waiting()] and [running()] are both zero; and in every state reached
    without a batch enqueue of an empty sequence onto an empty waiting queue
    it is true iff [waiting()] and [running()] are both zero. *)
Theorem complete_when_flag_clear c s :
  reachable c s ->
  (complete (sq s) = true <-> hasWaiting_ (sq s) = false /\ running (sq s) = 0) /\
  (complete (sq s) = true -> waiting (sq s) = 0 /\ running (sq s) = 0) /\
  (reachable_by fills_queue c s ->
   (complete (sq s) = true <-> waiting (sq s) = 0 /\ running (sq s) = 0)).
Proof.
  intros Hs. split; [apply complete_iff|]. split.
  - intros [Hf Hr]%complete_iff. split; [|done].
    apply (reachable_by_invariant _ c) in Hs. destruct Hs as [_ _ _ _ _ Hflag].
    unfold waiting, flag_covers in *.
    destruct (waiting_ (sq s)); [done|].
    rewrite Hflag in Hf; done.
  - intros Hfill. rewrite complete_iff.
    apply reachable_flag_exact, flag_exact_empty in Hfill.
    unfold empty in Hfill. rewrite negb_true_iff in Hfill. by rewrite Hfill.
Qed.

(** C10 (amended). In every reachable state a non-empty waiting queue has
    the has-waiting flag set.  Every step of the system (each enqueue
    overload, [try_remove], [clear], the scheduler's pass) other than a
    batch enqueue of an empty sequence onto an empty waiting queue keeps
    the flag equal to "waiting queue non-empty" when it was, and makes it so
    whenever it changes the waiting queue.  Hence in every state reached
    without such an empty batch, [empty()] holds iff [waiting()] is zero. *)
Theorem flag_follows_queue c s :
  reachable c s ->
  flag_covers (sq s) /\
  (forall l s', step l s = Some s' -> fills_queue s l ->
     flag_exact (sq s) \/ waiting_ (sq s') <> waiting_ (sq s) ->
     flag_exact (sq s')) /\
  (reachable_by fills_queue c s ->
   (empty (sq s) = true <-> waiting (sq s) = 0)).
Proof.
  intros Hs. pose proof (reachable_by_invariant _ c s Hs) as Hinv.
  split; [by destruct Hinv|]. split.
  - intros l s'. by apply (flag_exact_step c).
  - intros Hfill. by apply flag_exact_empty, (reachable_flag_exact c).
Qed.

(** ** The running count *)

Lemma running_le_concurrency q :
  running_ q <= Z.max 0 (pool_int q) -> running_ q <= concurrency q.
Proof.
  unfold pool_int, concurrency. intros Hr.
  pose proof (int_wrap_le_unsigned (Z.of_nat (length (workers_ q)))).
  pose proof (to_unsigned_nonneg (Z.of_nat (length (workers_ q)))). lia.
Qed.

(** The scheduler comes to stand before [++running_] only through a
    hand-over that the worker accepted. *)
Lemma accepted_only_by_handover s s' i :
  schedule_step s = Some s' -> spc s' = SAccepted i ->
  exists t rest,
    spc s = SLock i /\ waiting_ (sq s) = t :: rest /\
    workers_ (sq s) !! i = Some Idle /\
    workers_ (sq s') = <[i:=Busy t]> (workers_ (sq s)).
Proof.
  unfold schedule_step, assign_front. intros Hstep Hpc.
  destruct (spc s) as [| | | | |j|j|j|j|] eqn:Hs; simplify_eq;
    repeat case_match; simplify_eq; simpl in *; try done.
  match goal with Ha : try_assign _ _ = Some _ |- _ =>
    apply try_assign_accepts in Ha as [-> ->] end.
  injection Hpc as ->. by eexists _, _.
Qed.

(** C4 (amended). In every reachable state the counter [running_] is at
    most [concurrency()], and so is [running()] whenever the counter is not
    negative.  A step changes the counter by [running_delta]: plus one at
    the scheduler's step that follows an accepted hand-over, minus one at a
    worker's step that completes an executor whose task returned, nothing
    otherwise; and the scheduler stands before that increment only after a
    hand-over that a worker accepted.  An executor whose task exits by an
    exception leaves the counter as it is. *)
Theorem running_at_most_concurrency c s :
  reachable c s ->
  running_ (sq s) <= concurrency (sq s) /\
  (0 <= running_ (sq s) -> running (sq s) <= concurrency (sq s)) /\
  (forall l s', step l s = Some s' ->
     running_ (sq s') = running_ (sq s) + running_delta l s) /\
  (forall s' i, step Sched s = Some s' -> spc s' = SAccepted i ->
     exists t rest,
       spc s = SLock i /\ waiting_ (sq s) = t :: rest /\
       workers_ (sq s) !! i = Some Idle /\
       workers_ (sq s') = <[i:=Busy t]> (workers_ (sq s))) /\
  (forall t q,
     running_ (task_executor_call t q)
     = if task_throws t then running_ q else int_wrap (running_ q - 1)).
Proof.
  intros Hs. pose proof (reachable_by_invariant _ c s Hs) as Hinv.
  assert (Hle : running_ (sq s) <= concurrency (sq s)).
  { apply running_le_concurrency. by destruct Hinv. }
  split; [done|]. split; [|split; [|split]].
  - intros H0. unfold running. rewrite to_size_t_small; [done|].
    pose proof (pool_int_range (sq s)). destruct Hinv as [_ Hup _ _ _ _]. lia.
  - intros l s' Hstep. by destruct (invariant_step c l s s' Hinv Hstep).
  - intros s' i. apply accepted_only_by_handover.
  - intros t q. unfold task_executor_call, executor_run.
    by destruct (task_throws t).
Qed.

(** ** An empty pool *)

Lemma reachable_empty_pool s :
  reachable 0 s ->
  workers_ (sq s) = [] /\ running_ (sq s) = 0 /\ outside_pass (spc s) = true.
Proof.
  induction 1 as [|l s s' _ (Hw & Hr & Hpc) _ Hstep]; [done|].
  destruct l as [c| |i|]; simpl in Hstep.
  - destruct (lock_held (spc s)); simplify_eq. simpl.
    destruct (client_step_frame c (sq s)) as (-> & -> & _). done.
  - unfold schedule_step, busy in Hstep. rewrite Hw, Hr in Hstep.
    destruct (spc s); simplify_eq; simpl; repeat split; try done;
      by repeat case_match.
  - unfold worker_step in Hstep. by rewrite Hw in Hstep.
  - by simplify_eq.
Qed.

(** C6 (amended). The constructor makes no check: the pool has exactly as
    many workers as the concurrency value given, and [concurrency()]
    reports that value.  With the value 0 the pool is empty: in every
    reachable state [concurrency()] is 0, [busy()] holds, nothing is
    running, and no scheduler step takes a task from the waiting queue. *)
Theorem construct_takes_concurrency_as_given c :
  length (workers_ (@construct Task c)) = c /\
  (Z.of_nat c < 2 ^ 32 -> concurrency (@construct Task c) = Z.of_nat c) /\
  (forall s, reachable 0 s ->
     concurrency (sq s) = 0 /\ busy (sq s) = true /\ running (sq s) = 0 /\
     forall s', step Sched s = Some s' -> waiting_ (sq s') = waiting_ (sq s)).
Proof.
  split; [apply length_replicate|]. split.
  - intros Hc. unfold concurrency. simpl. rewrite length_replicate.
    apply to_unsigned_small. lia.
  - intros s (Hw & Hr & Hpc)%reachable_empty_pool.
    unfold concurrency, busy, running. rewrite Hw, Hr. repeat split; try done.
    intros s'. simpl. unfold schedule_step.
    destruct (spc s); try done; intros; by simplify_eq.
Qed.

End Interleaving.

(** * Concrete runs *)

Section ConcreteRuns.

Open Scope nat_scope.

(** C1. The iterator-range overload inserts at [begin(waiting_)]: with
    task 1 waiting, enqueueing the range [2; 3] gives the waiting queue
    [2; 3; 1], where the initializer-list overload gives [1; 2; 3]; the
    scheduler then hands task 2 to the first worker while task 1, enqueued
    before it, still waits. *)
Theorem enqueue_range_overtakes_waiting_task :
  waiting_ (enqueue_range [2; 3] (enqueue 1 (construct 1))) = [2; 3; 1] /\
  waiting_ (enqueue_il [2; 3] (enqueue 1 (construct 1))) = [1; 2; 3] /\
  run range_after_single_run (initial 1)
  = Some (mk_system (mk_queue true true 1%Z [3; 1] [Busy 2]) (SElseBusy 0)).
Proof. by vm_compute. Qed.

Lemma one_task_run_fills :
  reachable_by fills_queue 1
    (mk_system (mk_queue true false 0%Z [] [@Idle nat]) SWhile).
Proof.
  apply (run_reachable_by _ 1 one_task_run (initial 1));
    [constructor | reflexivity | by repeat constructor].
Defined.

Lemma try_remove_first_match_witness :
  (try_remove 3 (mk_queue true true 0%Z [1; 3; 2; 3] [@Idle nat])).1 = true /\
  waiting_ (try_remove 3 (mk_queue true true 0%Z [1; 3; 2; 3] [@Idle nat])).2
  = [1; 2; 3] /\
  try_remove 4 (mk_queue true true 0%Z [1; 3; 2; 3] [@Idle nat])
  = (false, mk_queue true true 0%Z [1; 3; 2; 3] [Idle]).
Proof.
  split; [reflexivity|]. split; [reflexivity|].
  apply (proj2 (try_remove_first_match 4
                  (mk_queue true true 0%Z [1; 3; 2; 3] [@Idle nat]))).
  by repeat constructor.
Defined.

(** After an empty range is enqueued into a fresh queue, nothing waits and
    nothing runs, yet [complete()] is false. *)
Lemma complete_counterexample :
  ~ (forall s : system nat, reachable 1 s ->
       (complete (sq s) = true <-> waiting (sq s) = 0%Z /\ running (sq s) = 0%Z)).
Proof.
  intros Hclaim.
  specialize (Hclaim (mk_system (enqueue_range [] (construct 1)) SWhile)
                (run_reachable 1 [Client (CallEnqueueRange [])] _ eq_refl)).
  destruct Hclaim as [_ Hc]. by specialize (Hc (conj eq_refl eq_refl)).
Qed.

Lemma complete_when_flag_clear_witness :
  complete (mk_queue true false 0%Z [] [@Idle nat]) = true <->
  waiting (mk_queue true false 0%Z [] [@Idle nat]) = 0%Z /\
  running (mk_queue true false 0%Z [] [@Idle nat]) = 0%Z.
Proof.
  apply (complete_when_flag_clear 1
           (mk_system (mk_queue true false 0%Z [] [Idle]) SWhile)).
  - apply (run_reachable 1 one_task_run). reflexivity.
  - apply one_task_run_fills.
Defined.

(** A failing task leaves the counter raised for good, and a task that
    reports before the scheduler has counted it drives the counter to -1,
    which [running()] shows as 2^64 - 1. *)
Lemma running_count_counterexample :
  run failing_task_run (initial 1)
  = Some (mk_system (mk_queue true false 1%Z [] [Idle]) SWhile) /\
  running_ (task_executor_call 0 (mk_queue true false 1%Z [] [Busy 0])) = 1%Z /\
  ~ (forall s : system nat, reachable 1 s ->
       (0 <= running (sq s) <= concurrency (sq s))%Z).
Proof.
  split; [reflexivity|]. split; [reflexivity|].
  intros Hclaim.
  specialize (Hclaim
    (mk_system (mk_queue true true (-1)%Z [1] [Done]) (SAccepted 0))
    (run_reachable 1 early_report_run _ eq_refl)).
  vm_compute in Hclaim. destruct Hclaim as [_ Hle]. by apply Hle.
Qed.

Lemma running_at_most_concurrency_witness :
  (running_ (mk_queue true true 1%Z [3; 1] [Busy 2])
   <= concurrency (mk_queue true true 1%Z [3; 1] [Busy 2]))%Z.
Proof.
  refine (proj1 (running_at_most_concurrency 1
           (mk_system (mk_queue true true 1%Z [3; 1] [Busy 2]) (SElseBusy 0)) _)).
  apply (run_reachable 1 range_after_single_run). reflexivity.
Defined.

(** The constructor accepts 0 and builds a pool without workers. *)
Lemma construct_zero_counterexample :
  ~ (forall c : nat, (1 <= concurrency (@construct nat c))%Z).
Proof. intros Hclaim. specialize (Hclaim 0). by vm_compute in Hclaim. Qed.

Lemma construct_takes_concurrency_as_given_witness :
  concurrency (@construct nat 4) = 4%Z.
Proof.
  apply (construct_takes_concurrency_as_given (Task:=nat) 4). reflexivity.
Defined.

(** Enqueueing an empty range into a fresh queue sets the flag with nothing
    waiting; the state is reached with no call in progress. *)
Lemma flag_counterexample :
  ~ flag_exact (enqueue_range [] (@construct nat 1)) /\
  ~ (forall s : system nat, reachable 1 s -> lock_held (spc s) = false ->
       (empty (sq s) = true <-> waiting (sq s) = 0%Z)).
Proof.
  split; [by vm_compute|].
  intros Hclaim.
  specialize (Hclaim (mk_system (enqueue_range [] (construct 1)) SWhile)
                (run_reachable 1 [Client (CallEnqueueRange [])] _ eq_refl)
                eq_refl).
  destruct Hclaim as [_ Hc]. by specialize (Hc eq_refl).
Qed.

Lemma flag_follows_queue_witness :
  empty (mk_queue true false 0%Z [] [@Idle nat]) = true <->
  waiting (mk_queue true false 0%Z [] [@Idle nat]) = 0%Z.
Proof.
  apply (flag_follows_queue 1
           (mk_system (mk_queue true false 0%Z [] [Idle]) SWhile)).
  - apply (run_reachable 1 one_task_run). reflexivity.
  - apply one_task_run_fills.
Defined.

End ConcreteRuns.

(** * The scheduler thread on its way *)

Section SchedulerThread.

Context {Task : Type} `{TaskType Task}.
Implicit Types (q : parallel_task_queue Task) (s : system Task)
  (w : task_thread Task) (ws : list (task_thread Task)) (l : label Task).

Lemma run_app (ls1 ls2 : list (label Task)) s :
  run (ls1 ++ ls2) s = run ls1 s ≫= run ls2.
Proof.
  revert s. induction ls1 as [|l ls1 IH]; intros s; simpl; [done|].
  destruct (step l s); [apply IH | done].
Qed.

Lemma run_reachable_from c (ls : list (label Task)) s s' :
  reachable c s -> run ls s = Some s' -> reachable c s'.
Proof.
  intros Hs Hrun. apply (run_reachable_by _ c ls s); [done|done|].
  by apply Forall_forall.
Qed.

Lemma worker_step_idle i j q q' :
  worker_step i q = Some q' -> workers_ q !! j = Some Idle ->
  workers_ q' !! j = Some Idle.
Proof.
  unfold worker_step. intros Hstep Hj.
  destruct (workers_ q !! i) as [[|t| |]|] eqn:Hi; simplify_eq; simpl;
    (destruct (decide (i = j)) as [->|Hne];
     [congruence | by rewrite list_lookup_insert_ne]).
Qed.

Lemma worker_step_frame i q q' :
  worker_step i q = Some q' ->
  length (workers_ q') = length (workers_ q) /\
  waiting_ q' = waiting_ q /\ hasWaiting_ q' = hasWaiting_ q /\
  active_ q' = active_ q.
Proof.
  unfold worker_step. intros Hstep.
  destruct (workers_ q !! i) as [[|t| |]|]; simplify_eq; simpl;
    by rewrite length_insert.
Qed.

Lemma sched_invariant_initial c : sched_invariant (@initial Task c).
Proof. constructor; simpl; try done. by intros i [?|?]. Qed.

Lemma sched_invariant_step l s s' :
  sched_invariant s -> step l s = Some s' -> sched_invariant s'.
Proof.
  intros [Hlock Hidx Hexit] Hstep. destruct l as [c| |i|]; simpl in Hstep.
  - destruct (lock_held (spc s)); simplify_eq.
    destruct (client_step_frame c (sq s)) as (_ & Hw & Ha).
    constructor; simpl; rewrite ?Hw, ?Ha; done.
  - unfold schedule_step, assign_front in Hstep.
    destruct (spc s) as [| | | | |i|i|i|i|] eqn:Hpc;
      repeat case_match; simplify_eq;
      constructor; simpl; intros; destruct_or?; simplify_eq; try done;
      rewrite ?length_insert;
      try (by eapply lookup_lt_Some);
      try (by apply Hexit);
      try (by match goal with
              | Ha : available ?w = true |- _ => destruct w
              end);
      by match goal with
         | Hi : forall i, _ \/ _ -> _ |- _ => apply Hi; auto
         end.
  - destruct (worker_step i (sq s)) as [q'|] eqn:Hw; simpl in Hstep; simplify_eq.
    destruct (worker_step_frame _ _ _ Hw) as (Hlen & _ & _ & Ha).
    constructor; simpl; rewrite ?Hlen, ?Ha; try done.
    intros j Hj. by apply (worker_step_idle i j (sq s)), Hlock.
  - simplify_eq. constructor; simpl; try done.
Qed.

Lemma reachable_sched_invariant c s : reachable c s -> sched_invariant s.
Proof.
  induction 1 as [|l s s' _ IH _ Hstep]; [apply sched_invariant_initial|].
  by apply (sched_invariant_step l s).
Qed.

(** ** The hand-over is never rejected *)

(** X1. In every reachable state in which the scheduler is about to hand
    over to worker [i] (after [available()] at line 228), that worker is
    still idle: only the scheduler assigns.  So its step either finds the
    waiting queue empty and clears the flag, or hands the front task to
    worker [i]; the rejection branch of line 234 is not taken. *)
Theorem handover_never_rejected c s i s' :
  reachable c s -> spc s = SLock i -> step Sched s = Some s' ->
  workers_ (sq s) !! i = Some Idle /\
  ((waiting_ (sq s) = [] /\
    s' = mk_system (store_hasWaiting false (sq s)) SWhile) \/
   (exists t rest,
      waiting_ (sq s) = t :: rest /\
      s' = mk_system (set_workers (<[i:=Busy t]> (workers_ (sq s))) (sq s))
                     (SAccepted i))).
Proof.
  intros Hs Hpc Hstep.
  pose proof (sinv_lock s (reachable_sched_invariant c s Hs) i Hpc) as Hw.
  split; [done|]. simpl in Hstep. unfold schedule_step, assign_front in Hstep.
  rewrite Hpc, Hw in Hstep.
  destruct (waiting_ (sq s)) as [|t rest]; simpl in Hstep; simplify_eq.
  - by left.
  - right. by exists t, rest.
Qed.

(** ** The scheduler runs until it is told to stop, then stops *)

Lemma step_keeps_inactive l s s' :
  step l s = Some s' -> active_ (sq s) = false -> active_ (sq s') = false.
Proof.
  intros Hstep Ha. destruct l as [c| |i|]; simpl in Hstep.
  - destruct (lock_held (spc s)); simplify_eq. simpl.
    by destruct (client_step_frame c (sq s)) as (_ & _ & ->).
  - unfold schedule_step, assign_front in Hstep.
    destruct (spc s); repeat case_match; by simplify_eq.
  - destruct (worker_step i (sq s)) as [q'|] eqn:Hw; simpl in Hstep; simplify_eq.
    simpl. destruct (worker_step_frame _ _ _ Hw) as (_ & _ & _ & Hq).
    by rewrite Hq.
  - by simplify_eq.
Qed.

Lemma step_keeps_position l s s' :
  step l s = Some s' -> l <> Sched -> spc s' = spc s.
Proof.
  intros Hstep Hl. destruct l as [c| |i|]; simpl in Hstep; [|done| |].
  - destruct (lock_held (spc s)); by simplify_eq.
  - destruct (worker_step i (sq s)); simpl in Hstep; by simplify_eq.
  - by simplify_eq.
Qed.

Lemma sched_measure_step c s s' :
  reachable c s -> active_ (sq s) = false -> step Sched s = Some s' ->
  (sched_measure c (spc s') < sched_measure c (spc s))%nat.
Proof.
  intros Hs Ha Hstep.
  pose proof (inv_pool c s (reachable_by_invariant _ c s Hs)) as Hlen.
  destruct (reachable_sched_invariant c s Hs) as [Hlock Hidx _].
  simpl in Hstep. unfold schedule_step, assign_front in Hstep.
  destruct (spc s) as [| | | | |i|i|i|i|] eqn:Hpc; simplify_eq.
  - rewrite Ha. simpl. lia.
  - destruct (negb (empty (sq s))); simpl; lia.
  - destruct (negb (busy (sq s))); simpl; lia.
  - destruct (running (sq s) <? 1); simpl; lia.
  - simpl. lia.
  - destruct (workers_ (sq s) !! i) as [w|] eqn:Hw; simplify_eq; [|simpl; lia].
    apply lookup_lt_Some in Hw. destruct (available w); simpl; lia.
  - pose proof (Hlock i eq_refl) as Hw. rewrite Hw in Hstep.
    apply lookup_lt_Some in Hw.
    destruct (waiting_ (sq s)); simpl in Hstep; simplify_eq; simpl; lia.
  - pose proof (Hidx i (or_introl eq_refl)) as Hi.
    repeat case_match; simplify_eq; simpl; lia.
  - pose proof (Hidx i (or_intror eq_refl)) as Hi.
    destruct (busy (sq s)); simpl; lia.
Qed.

Lemma sched_step_none c s :
  reachable c s -> (step Sched s = None <-> spc s = SExit).
Proof.
  intros Hs. destruct (reachable_sched_invariant c s Hs) as [Hlock _ _].
  simpl. unfold schedule_step, assign_front. split.
  - intros Hnone. destruct (spc s) as [| | | | |i|i|i|i|] eqn:Hpc;
      try done; repeat case_match; simplify_eq.
    by rewrite (Hlock i eq_refl) in *.
  - by intros ->.
Qed.

(** X2. In every reachable state the scheduler thread can take its next
    step unless it has left its loop, and it has left its loop only if
    [active_] is false. *)
Theorem scheduler_runs_while_active c s :
  reachable c s ->
  (step Sched s = None <-> spc s = SExit) /\
  (spc s = SExit -> active_ (sq s) = false).
Proof.
  intros Hs. split; [by apply (sched_step_none c)|].
  by destruct (reachable_sched_invariant c s Hs).
Qed.

(** X3. Once [active_] is false (line 83 of the destructor), the scheduler
    thread takes at most [4 * c + 5] further steps however the other threads
    interleave, [active_] stays false, and left to itself the scheduler
    reaches the end of its loop, so that [scheduler_.join()] returns. *)
Theorem scheduler_exits_once_inactive c s :
  reachable c s -> active_ (sq s) = false ->
  (forall ls s', run ls s = Some s' ->
     (sched_steps ls + sched_measure c (spc s') <= sched_measure c (spc s))%nat /\
     (sched_steps ls <= 4 * c + 5)%nat /\ active_ (sq s') = false) /\
  (exists n s', (n <= 4 * c + 5)%nat /\
     run (replicate n Sched) s = Some s' /\ spc s' = SExit).
Proof.
  intros Hs Ha.
  assert (Hbound : forall s0, reachable c s0 ->
            (sched_measure c (spc s0) <= 4 * c + 5)%nat).
  { intros s0 Hs0.
    pose proof (inv_pool c s0 (reachable_by_invariant _ c s0 Hs0)) as Hlen.
    destruct (spc s0); simpl; lia. }
  assert (Hrun : forall ls s0 s', reachable c s0 -> active_ (sq s0) = false ->
            run ls s0 = Some s' ->
            (sched_steps ls + sched_measure c (spc s') <= sched_measure c (spc s0))%nat /\
            active_ (sq s') = false).
  { induction ls as [|l ls IH]; intros s0 s' Hs0 Ha0 Hr; simpl in Hr.
    - simplify_eq. simpl. split; [lia | done].
    - destruct (step l s0) as [s1|] eqn:Hstep; [|done].
      assert (Hs1 : reachable c s1) by by apply (reachable_step _ c l s0).
      pose proof (step_keeps_inactive l s0 s1 Hstep Ha0) as Ha1.
      destruct (IH s1 s' Hs1 Ha1 Hr) as [Hm Ha']. split; [|done].
      destruct l as [cl| |i|]; simpl sched_steps.
      + rewrite <- (step_keeps_position _ _ _ Hstep); [lia | done].
      + pose proof (sched_measure_step c s0 s1 Hs0 Ha0 Hstep). lia.
      + rewrite <- (step_keeps_position _ _ _ Hstep); [lia | done].
      + rewrite <- (step_keeps_position _ _ _ Hstep); [lia | done]. }
  split.
  - intros ls s' Hr. destruct (Hrun ls s s' Hs Ha Hr) as [Hm Ha'].
    pose proof (Hbound s Hs). repeat split; [done | lia | done].
  - assert (Hsolo : forall m s0, (sched_measure c (spc s0) <= m)%nat ->
              reachable c s0 -> active_ (sq s0) = false ->
              exists n s', (n <= m)%nat /\
                run (replicate n Sched) s0 = Some s' /\ spc s' = SExit).
    { induction m as [|m IH]; intros s0 Hm Hs0 Ha0.
      - exists 0%nat, s0. repeat split; [lia|].
        destruct (reachable_sched_invariant c s0 Hs0) as [Hlock Hidx _].
        pose proof (inv_pool c s0 (reachable_by_invariant _ c s0 Hs0)) as Hlen.
        destruct (spc s0) as [| | | | |i|i|i|i|] eqn:Hpc; simpl in Hm;
          try lia; try done.
        + pose proof (Hidx i (or_introl eq_refl)). lia.
        + pose proof (Hidx i (or_intror eq_refl)). lia.
      - destruct (step Sched s0) as [s1|] eqn:Hstep.
        + pose proof (sched_measure_step c s0 s1 Hs0 Ha0 Hstep) as Hlt.
          destruct (IH s1) as (n & s' & Hn & Hr & Hx); [lia | | |].
          * by apply (reachable_step _ c Sched s0).
          * by apply (step_keeps_inactive Sched s0).
          * exists (S n), s'. repeat split; [lia | | done].
            simpl replicate. simpl run. simpl in Hstep. by rewrite Hstep.
        + apply (sched_step_none c s0 Hs0) in Hstep.
          exists 0%nat, s0. repeat split; [lia | done]. }
    apply (Hsolo (4 * c + 5)%nat s); auto.
Qed.

End SchedulerThread.

(** * What the running count counts *)

Section Accounting.

Context {Task : Type} `{TaskType Task}.
Implicit Types (q : parallel_task_queue Task) (s : system Task)
  (w : task_thread Task) (ws : list (task_thread Task)) (l : label Task).

Lemma accounting_step n l s s' :
  invariant n s -> step l s = Some s' ->
  running_ (sq s') + pending (spc s') - in_flight (workers_ (sq s'))
  = running_ (sq s) + pending (spc s) - in_flight (workers_ (sq s))
    + throws_at l s.
Proof.
  intros Hinv Hstep.
  destruct (invariant_step n l s s' Hinv Hstep) as [_ ->].
  destruct l as [c| |i|]; simpl in *.
  - destruct (lock_held (spc s)); simplify_eq. simpl.
    destruct (client_step_frame c (sq s)) as (_ & -> & _). lia.
  - unfold schedule_step, assign_front in Hstep.
    destruct (spc s) as [| | | | |i|i|i|i|] eqn:Hpc;
      repeat case_match; simplify_eq; simpl; try lia.
    match goal with Ha : try_assign _ _ = Some _ |- _ =>
      apply try_assign_accepts in Ha as [-> ->] end.
    erewrite in_flight_insert by done. simpl. lia.
  - unfold worker_step in Hstep.
    destruct (workers_ (sq s) !! i) as [[|t| |]|] eqn:Hw;
      simpl in Hstep; simplify_eq; simpl;
      erewrite in_flight_insert by done; simpl; try lia.
    unfold executor_run. destruct (task_throws t); simpl; lia.
  - simplify_eq. simpl. lia.
Qed.

Lemma thrown_nonneg (ls : list (label Task)) s : 0 <= thrown ls s.
Proof.
  revert s. induction ls as [|l ls IH]; intros s; simpl; [lia|].
  destruct (step l s) as [s'|]; [|lia]. specialize (IH s').
  assert (0 <= throws_at l s); [|lia].
  unfold throws_at. repeat case_match; lia.
Qed.

Lemma accounting_run n (ls : list (label Task)) s s' :
  invariant n s -> run ls s = Some s' ->
  invariant n s' /\
  running_ (sq s') + pending (spc s') - in_flight (workers_ (sq s'))
  = running_ (sq s) + pending (spc s) - in_flight (workers_ (sq s))
    + thrown ls s.
Proof.
  revert s. induction ls as [|l ls IH]; intros s Hinv Hrun; simpl in *.
  - simplify_eq. split; [done | lia].
  - destruct (step l s) as [s1|] eqn:Hstep; [|done].
    destruct (invariant_step n l s s1 Hinv Hstep) as [Hinv1 _].
    destruct (IH s1 Hinv1 Hrun) as [Hinv' ->].
    split; [done|]. rewrite (accounting_step n l s s1 Hinv Hstep). lia.
Qed.

(** X4. The counter's books.  In the state that a run [ls] reaches from
    the constructed queue, [running_] plus one if the scheduler stands
    between an accepted hand-over and its [++running_] equals the number of
    workers whose executor is still inside [operator()] plus the number of
    task runs that exited by an exception during [ls]. *)
Theorem running_accounts_for_executors c (ls : list (label Task)) s :
  run ls (initial c) = Some s ->
  running_ (sq s) + pending (spc s)
  = in_flight (workers_ (sq s)) + thrown ls (initial c).
Proof.
  intros Hrun.
  destruct (accounting_run c ls (initial c) s (invariant_initial c) Hrun)
    as [_ Hacc].
  simpl in Hacc. rewrite in_flight_replicate in Hacc. lia.
Qed.

Lemma running_bounds c s :
  reachable c s ->
  -1 <= running_ (sq s) < 2 ^ 31 /\
  (pending (spc s) = 0 ->
   0 <= in_flight (workers_ (sq s)) <= running_ (sq s) /\
   running (sq s) = running_ (sq s)).
Proof.
  intros Hs. destruct (reachable_by_invariant _ c s Hs) as [_ Hup _ Hlow _ _].
  pose proof (in_flight_nonneg (workers_ (sq s))) as Hnn.
  pose proof (pool_int_range (sq s)) as HK.
  assert (0 <= pending (spc s) <= 1) by (destruct (spc s); simpl; lia).
  split; [lia|]. intros Hp. split; [lia|].
  unfold running. apply to_size_t_small. lia.
Qed.

(** X5. In every reachable state [running_] is at least -1 and below
    2^31.  Whenever the scheduler does not stand between an accepted
    hand-over and its [++running_], [running_] is at least the number of
    workers whose executor is inside [operator()], and [running()] returns
    the counter unchanged. *)
Theorem running_lower_bound c s :
  reachable c s ->
  -1 <= running_ (sq s) < 2 ^ 31 /\
  (pending (spc s) = 0 ->
   0 <= in_flight (workers_ (sq s)) <= running_ (sq s) /\
   running (sq s) = running_ (sq s)).
Proof. apply running_bounds. Qed.

(** X6. A failed task is never written off.  Once a worker has run a task
    that exits by an exception, in every state that any further run
    reaches [complete()] is false and the scheduler's step does not call
    [notify_all]. *)
Theorem failed_task_blocks_completion c s i t s1 (ls : list (label Task)) s2 :
  reachable c s -> workers_ (sq s) !! i = Some (Busy t) ->
  task_throws t = true -> step (Work i) s = Some s1 ->
  run ls s1 = Some s2 ->
  complete (sq s2) = false /\ notifies s2 = false.
Proof.
  intros Hs Hw Ht Hstep Hrun.
  pose proof (reachable_by_invariant _ c s Hs) as Hinv.
  pose proof (accounting_step c _ s s1 Hinv Hstep) as Hacc1.
  simpl throws_at in Hacc1. rewrite Hw, Ht in Hacc1.
  destruct (invariant_step c _ s s1 Hinv Hstep) as [Hinv1 _].
  destruct (accounting_run c ls s1 s2 Hinv1 Hrun) as [Hinv2 Hacc2].
  pose proof (thrown_nonneg ls s1) as Hth.
  destruct Hinv as [_ _ _ Hlow _ _].
  destruct Hinv2 as [_ Hup2 _ _ Hfront2 Hflag2].
  pose proof (in_flight_nonneg (workers_ (sq s2))) as Hnn.
  pose proof (pool_int_range (sq s2)) as HK.
  assert (Hpos : 1 <= running_ (sq s2) + pending (spc s2)) by lia.
  unfold complete, notifies, empty, running.
  destruct (decide (pending (spc s2) = 0)) as [Hp|Hp].
  - rewrite to_size_t_small by lia.
    assert ((running_ (sq s2) <? 1) = false) as -> by lia.
    rewrite andb_false_r. by destruct (spc s2).
  - destruct (spc s2) as [| | | | |j|j|j|j|] eqn:Hpc; simpl in Hp; try lia.
    rewrite (Hflag2 (Hfront2 eq_refl)). done.
Qed.

Lemma in_flight_zero ws :
  in_flight ws = 0 -> Forall (fun w => w = Idle \/ w = Done) ws.
Proof.
  induction ws as [|w ws IH]; simpl; intros Hz; [constructor|].
  pose proof (in_flight_nonneg ws).
  destruct w; simpl in Hz; try lia; constructor; auto; apply IH; lia.
Qed.

(** X7. Completion is signalled only when it is real.  In every reachable
    state in which the scheduler's step calls [notify_all] (lines 258-261),
    no task is waiting, the counter is zero, and every worker is idle or has
    left its executor. *)
Theorem notify_only_when_idle c s :
  reachable c s -> notifies s = true ->
  waiting_ (sq s) = [] /\ running_ (sq s) = 0 /\
  Forall (fun w => w = Idle \/ w = Done) (workers_ (sq s)).
Proof.
  intros Hs Hn. pose proof (running_bounds c s Hs) as [Hr Hp].
  destruct (reachable_by_invariant _ c s Hs) as [_ _ _ _ _ Hflag].
  unfold notifies in Hn.
  destruct (spc s) eqn:Hpc; try done. simpl in Hp.
  destruct (Hp eq_refl) as [Hfl Hrun].
  apply andb_true_iff in Hn as [He Hlt]. rewrite Hrun in Hlt.
  unfold empty in He. apply negb_true_iff in He.
  assert (Hz : running_ (sq s) = 0) by lia.
  repeat split; [|done|apply in_flight_zero; lia].
  unfold flag_covers in Hflag. destruct (waiting_ (sq s)); [done|].
  rewrite Hflag in He; done.
Qed.

End Accounting.

(** * One pass of the scheduler on its own *)

Section SchedulerPass.

Context {Task : Type} `{TaskType Task}.
Implicit Types (q : parallel_task_queue Task) (s : system Task)
  (w : task_thread Task) (ws : list (task_thread Task)) (l : label Task).

(** From worker [i] the range-for walks past the workers that are not
    available and stops at the first available one. *)
Lemma scan_to_first_idle n : forall i j s,
  (j = i + n)%nat -> spc s = SFor i ->
  workers_ (sq s) !! j = Some Idle ->
  (forall k w, (i <= k < j)%nat -> workers_ (sq s) !! k = Some w ->
               available w = false) ->
  run (replicate (S n) Sched) s = Some (mk_system (sq s) (SLock j)).
Proof.
  induction n as [|n IH]; intros i j s Hj Hpc Hidle Hbusy.
  - assert (j = i) as -> by lia. simpl. unfold schedule_step.
    by rewrite Hpc, Hidle.
  - assert (is_Some (workers_ (sq s) !! i)) as [w Hw].
    { apply lookup_lt_is_Some. apply lookup_lt_Some in Hidle. lia. }
    pose proof (Hbusy i w ltac:(lia) Hw) as Hav.
    change (replicate (S (S n)) Sched) with (@Sched Task :: replicate (S n) Sched).
    simpl run. unfold schedule_step at 1. rewrite Hpc, Hw, Hav.
    apply (IH (S i) j (mk_system (sq s) (SFor (S i)))); simpl;
      [lia | done | done |].
    intros k w' Hk. apply Hbusy. lia.
Qed.

(** The range-for walks past a pool in which no worker is available. *)
Lemma scan_past_all n : forall i s,
  (length (workers_ (sq s)) = i + n)%nat -> spc s = SFor i ->
  Forall (fun w => available w = false) (workers_ (sq s)) ->
  run (replicate (S n) Sched) s = Some (mk_system (sq s) SWhile).
Proof.
  induction n as [|n IH]; intros i s Hlen Hpc Hall.
  - simpl. unfold schedule_step. rewrite Hpc.
    rewrite lookup_ge_None_2 by lia. done.
  - assert (is_Some (workers_ (sq s) !! i)) as [w Hw].
    { apply lookup_lt_is_Some. lia. }
    assert (Hav : available w = false).
    { by apply (Forall_lookup_1 _ _ i w Hall). }
    change (replicate (S (S n)) Sched) with (@Sched Task :: replicate (S n) Sched).
    simpl run. unfold schedule_step at 1. rewrite Hpc, Hw, Hav.
    apply (IH (S i) (mk_system (sq s) (SFor (S i)))); simpl;
      [lia | done | done].
Qed.

Lemma run_app_Some (ls1 ls2 : list (label Task)) s s1 :
  run ls1 s = Some s1 -> run (ls1 ++ ls2) s = run ls2 s1.
Proof. intros Hr. by rewrite run_app, Hr. Qed.

(** The three steps of line 253-254 that lead into [try_assign_tasks]. *)
Lemma enter_pass s :
  spc s = SWhile -> active_ (sq s) = true -> hasWaiting_ (sq s) = true ->
  busy (sq s) = false ->
  run (replicate 3 Sched) s = Some (mk_system (sq s) (SFor 0)).
Proof.
  intros Hpc Ha Hf Hb. simpl. unfold schedule_step at 1. rewrite Hpc, Ha.
  unfold schedule_step at 1. simpl. unfold empty. rewrite Hf. simpl.
  unfold schedule_step. simpl. by rewrite Hb.
Qed.

(** X8. Slot order and FIFO order.  When the scheduler starts an iteration
    of its loop with the flag set, [busy()] false and task [t] at the front
    of the waiting queue, and worker [j] is the first available worker in
    slot order, then [j + 6] steps of the scheduler on its own hand exactly
    [t] to worker [j], count it and pop it; the flag is cleared iff nothing
    is left waiting.  No other worker and no other waiting task is
    touched. *)
Theorem first_idle_worker_gets_front_task s j t rest :
  spc s = SWhile -> active_ (sq s) = true -> hasWaiting_ (sq s) = true ->
  busy (sq s) = false -> waiting_ (sq s) = t :: rest ->
  workers_ (sq s) !! j = Some Idle ->
  (forall k w, (k < j)%nat -> workers_ (sq s) !! k = Some w ->
               available w = false) ->
  run (replicate (j + 6) Sched) s
  = Some (mk_system
            (mk_queue true (match rest with [] => false | _ :: _ => true end)
                      (int_wrap (running_ (sq s) + 1)) rest
                      (<[j:=Busy t]> (workers_ (sq s))))
            (match rest with [] => SWhile | _ :: _ => SElseBusy j end)).
Proof.
  intros Hpc Ha Hf Hb Hq Hidle Hbusy.
  replace (j + 6)%nat with (3 + (S j + 2))%nat by lia.
  rewrite (replicate_add 3), (run_app_Some _ _ _ _ (enter_pass s Hpc Ha Hf Hb)).
  rewrite (replicate_add (S j)).
  rewrite (run_app_Some _ _ _ (mk_system (sq s) (SLock j)));
    [|apply (scan_to_first_idle j 0 j (mk_system (sq s) (SFor 0))); simpl;
      try done; intros k w Hk; apply Hbusy; lia].
  simpl. unfold schedule_step at 1, assign_front. simpl. rewrite Hidle, Hq. simpl.
  unfold schedule_step, count_and_pop. simpl. rewrite Hq. simpl.
  destruct rest; simpl;
    unfold store_hasWaiting, set_waiting, store_running, set_workers; simpl;
    by rewrite Ha, ?Hf.
Qed.

(** X9. A stale flag is repaired.  When the scheduler starts an iteration
    with the flag set but nothing waiting, and worker [j] is the first
    available worker, [j + 5] steps of the scheduler on its own clear the
    flag and change nothing else. *)
Theorem stale_flag_cleared s j :
  spc s = SWhile -> active_ (sq s) = true -> hasWaiting_ (sq s) = true ->
  busy (sq s) = false -> waiting_ (sq s) = [] ->
  workers_ (sq s) !! j = Some Idle ->
  (forall k w, (k < j)%nat -> workers_ (sq s) !! k = Some w ->
               available w = false) ->
  run (replicate (j + 5) Sched) s
  = Some (mk_system (store_hasWaiting false (sq s)) SWhile).
Proof.
  intros Hpc Ha Hf Hb Hq Hidle Hbusy.
  replace (j + 5)%nat with (3 + (S j + 1))%nat by lia.
  rewrite (replicate_add 3), (run_app_Some _ _ _ _ (enter_pass s Hpc Ha Hf Hb)).
  rewrite (replicate_add (S j)).
  rewrite (run_app_Some _ _ _ (mk_system (sq s) (SLock j)));
    [|apply (scan_to_first_idle j 0 j (mk_system (sq s) (SFor 0))); simpl;
      try done; intros k w Hk; apply Hbusy; lia].
  simpl. unfold schedule_step, assign_front. simpl. by rewrite Hidle, Hq.
Qed.

(** X10. No worker, no hand-over.  When the scheduler starts an iteration
    with the flag set and [busy()] false but no worker is available (their
    executors are running or have not yet returned to idle), the pass of
    [length workers_ + 4] steps leaves the queue object as it is: waiting
    tasks stay in place and in order. *)
Theorem pass_without_idle_worker_changes_nothing s :
  spc s = SWhile -> active_ (sq s) = true -> hasWaiting_ (sq s) = true ->
  busy (sq s) = false ->
  Forall (fun w => available w = false) (workers_ (sq s)) ->
  run (replicate (length (workers_ (sq s)) + 4) Sched) s
  = Some (mk_system (sq s) SWhile).
Proof.
  intros Hpc Ha Hf Hb Hall.
  replace (length (workers_ (sq s)) + 4)%nat
    with (3 + S (length (workers_ (sq s))))%nat by lia.
  rewrite (replicate_add 3), (run_app_Some _ _ _ _ (enter_pass s Hpc Ha Hf Hb)).
  by apply (scan_past_all _ 0 (mk_system (sq s) (SFor 0))).
Qed.

End SchedulerPass.

(** * Teardown, round trips and frames *)

Section Composition.

Context {Task : Type} `{TaskType Task}.
Implicit Types (q : parallel_task_queue Task) (s : system Task)
  (w : task_thread Task) (ws : list (task_thread Task)) (l : label Task)
  (t : Task) (ts : list Task).

Lemma quiet_step l s s' :
  waiting_ (sq s) = [] -> lock_held (spc s) = false -> submits l = false ->
  step l s = Some s' ->
  waiting_ (sq s') = [] /\ lock_held (spc s') = false /\
  in_flight (workers_ (sq s')) <= in_flight (workers_ (sq s)) /\
  (forall i t, workers_ (sq s') !! i = Some (Busy t) ->
               workers_ (sq s) !! i = Some (Busy t)).
Proof.
  intros Hq Hfree Hsub Hstep. destruct l as [c| |i|]; simpl in Hstep.
  - rewrite Hfree in Hstep. simplify_eq. simpl.
    destruct c as [t|ts|il|t|t|]; try done; simpl.
    unfold try_remove. rewrite Hq. simpl. split_and!; [done|done|lia|done].
  - unfold schedule_step, assign_front in Hstep. rewrite Hq in Hstep.
    destruct (spc s) as [| | | | |i|i|i|i|] eqn:Hpc; try done;
      repeat case_match; simplify_eq; simpl; split_and!; done || lia.
  - destruct (worker_step i (sq s)) as [q'|] eqn:Hw; simpl in Hstep; simplify_eq.
    destruct (worker_step_frame _ _ _ Hw) as (_ & Hq' & _ & _). simpl.
    rewrite Hq'. unfold worker_step in Hw.
    destruct (workers_ (sq s) !! i) as [[|t| |]|] eqn:Hi; simplify_eq; simpl;
      erewrite in_flight_insert by done; simpl;
      (split_and!; [done|done| |]);
      try (unfold executor_run; destruct (task_throws t); simpl; lia);
      try lia;
      intros j t' Hj;
      (destruct (decide (i = j)) as [->|Hne];
       [ rewrite list_lookup_insert_eq in Hj by (by eapply lookup_lt_Some);
         unfold executor_run in Hj; repeat case_match; by simplify_eq
       | by rewrite list_lookup_insert_ne in Hj ]).
  - simplify_eq. simpl. split_and!; [done|done|lia|done].
Qed.

(** X11. Nothing is started once the waiting queue has been cleared.  From
    a state with an empty waiting queue and the lock free (as [clear()]
    leaves it, line 81 of the destructor), any run without further enqueue
    calls keeps the waiting queue empty, never brings the scheduler to a
    hand-over, does not raise the number of executors in flight, and leaves
    a task in a worker's hands only if the worker held it before. *)
Theorem nothing_started_after_clear (ls : list (label Task)) s s' :
  waiting_ (sq s) = [] -> lock_held (spc s) = false ->
  Forall (fun l => submits l = false) ls -> run ls s = Some s' ->
  waiting_ (sq s') = [] /\ lock_held (spc s') = false /\
  in_flight (workers_ (sq s')) <= in_flight (workers_ (sq s)) /\
  (forall i t, workers_ (sq s') !! i = Some (Busy t) ->
               workers_ (sq s) !! i = Some (Busy t)).
Proof.
  revert s. induction ls as [|l ls IH]; intros s Hq Hfree Hall Hrun;
    simpl in Hrun.
  - simplify_eq. split_and!; [done|done|lia|done].
  - destruct (step l s) as [s1|] eqn:Hstep; [|done].
    inversion Hall as [|? ? Hl Hls]; subst.
    destruct (quiet_step l s s1 Hq Hfree Hl Hstep) as (Hq1 & Hfree1 & Hin1 & Hb1).
    destruct (IH s1 Hq1 Hfree1 Hls Hrun) as (Hq' & Hfree' & Hin' & Hb').
    split_and!; [done|done|lia|]. intros i t Hi. by apply Hb1, Hb'.
Qed.

Lemma find_app_last t (l : list Task) :
  task_eq t t = true -> Forall (fun y => task_eq y t = false) l ->
  find t (l ++ [t]) = length l.
Proof.
  intros Ht. induction 1 as [|y l Hy _ IH]; simpl; [by rewrite Ht|].
  by rewrite Hy, IH.
Qed.

Lemma find_app_lt t (l : list Task) :
  task_eq t t = true -> (find t (l ++ [t]) < length (l ++ [t]))%nat.
Proof.
  intros Ht. induction l as [|y l IH]; simpl; [rewrite Ht; lia|].
  destruct (task_eq y t); lia.
Qed.

(** X12. Enqueue, then take back.  For a task [t] that compares equal to
    itself, [try_remove(t)] right after [enqueue(t)] returns [true] and
    brings [waiting()] back to what it was.  When moreover no task that was
    already waiting compares equal to [t] and the flag was exact, the queue
    object is exactly as before the two calls. *)
Theorem enqueue_then_try_remove t q :
  task_eq t t = true ->
  (try_remove t (enqueue t q)).1 = true /\
  waiting (try_remove t (enqueue t q)).2 = waiting q /\
  (Forall (fun y => task_eq y t = false) (waiting_ q) -> flag_exact q ->
   (try_remove t (enqueue t q)).2 = q).
Proof.
  intros Ht. pose proof (find_app_lt t (waiting_ q) Ht) as Hlt.
  destruct (find_split t _ Hlt) as (l1 & x & l2 & Hw & _ & _ & _ & Hdel).
  assert (Hlen : length (l1 ++ l2) = length (waiting_ q)).
  { apply (f_equal length) in Hw. rewrite !length_app in *. simpl in *. lia. }
  unfold try_remove, waiting. simpl.
  apply Nat.ltb_lt in Hlt. rewrite Hlt. simpl. rewrite Hdel.
  split; [by destruct (l1 ++ l2)|]. split.
  { destruct (l1 ++ l2) eqn:E; simpl; rewrite <- Hlen; done. }
  intros Hmiss Hflag. rewrite <- Hdel.
  rewrite (find_app_last t _ Ht Hmiss).
  assert (delete (length (waiting_ q)) (waiting_ q ++ [t]) = waiting_ q) as ->.
  { clear. induction (waiting_ q) as [|y l IH]; simpl; [done | by rewrite IH]. }
  unfold flag_exact in Hflag. destruct q as [a h r wq ws]. simpl in *.
  destruct wq; simpl; unfold store_hasWaiting, set_waiting; simpl; by subst.
Qed.

(** X13. A batch is a sequence of single calls.  Enqueueing a non-empty
    initializer list leaves the queue object exactly as enqueueing its
    tasks one by one, in order; for every list the waiting queue is the
    same, while an empty list sets the has-waiting flag where no call at
    all leaves it alone. *)
Theorem enqueue_il_as_single_enqueues ts q :
  waiting_ (enqueue_il ts q) = waiting_ (foldl (fun q t => enqueue t q) q ts) /\
  (ts <> [] -> enqueue_il ts q = foldl (fun q t => enqueue t q) q ts) /\
  hasWaiting_ (enqueue_il [] q) = true.
Proof.
  assert (Hne : forall ts t q,
            foldl (fun q t => enqueue t q) (enqueue t q) ts
            = enqueue_il (t :: ts) q).
  { clear. induction ts as [|t' ts IH]; intros t q; simpl; [done|].
    rewrite IH. unfold enqueue_il, enqueue, store_hasWaiting, set_waiting.
    simpl. by rewrite <- app_assoc. }
  split; [|split; [|done]].
  - destruct ts as [|t ts]; simpl; [by rewrite app_nil_r | by rewrite Hne].
  - intros Hts. destruct ts as [|t ts]; [done|]. simpl. by rewrite Hne.
Qed.

(** X14. Who touches what.  In every reachable state: a scheduler step
    either leaves the waiting queue as it is or pops its front task, and it
    pops only right after an accepted hand-over; a client call leaves the
    counter, the workers and [active_] as they are; a worker's step and the
    destructor's store leave the waiting queue and the has-waiting flag as
    they are. *)
Theorem step_frames c s l s' :
  reachable c s -> step l s = Some s' ->
  match l with
  | Sched =>
      waiting_ (sq s') = waiting_ (sq s) \/
      exists i t, spc s = SAccepted i /\ waiting_ (sq s) = t :: waiting_ (sq s')
  | Client _ =>
      running_ (sq s') = running_ (sq s) /\ workers_ (sq s') = workers_ (sq s) /\
      active_ (sq s') = active_ (sq s)
  | Work _ | Deactivate =>
      waiting_ (sq s') = waiting_ (sq s) /\
      hasWaiting_ (sq s') = hasWaiting_ (sq s)
  end.
Proof.
  intros Hs Hstep.
  destruct (reachable_by_invariant _ c s Hs) as [_ _ _ _ Hfront _].
  destruct l as [cl| |i|]; simpl in Hstep.
  - destruct (lock_held (spc s)); simplify_eq. apply client_step_frame.
  - unfold schedule_step, assign_front in Hstep.
    destruct (spc s) as [| | | | |i|i|i|i|] eqn:Hpc;
      repeat case_match; simplify_eq; simpl; auto;
      right; exists i; specialize (Hfront eq_refl);
      (destruct (waiting_ (sq s)) as [|t0 rest0] eqn:Hq; [done|]);
      exists t0; simpl in *; by simplify_eq.
  - destruct (worker_step i (sq s)) as [q'|] eqn:Hw; simpl in Hstep; simplify_eq.
    by destruct (worker_step_frame _ _ _ Hw) as (_ & ? & ? & _).
  - by simplify_eq.
Qed.

(** X15. The pool never changes size, and [busy()] says that it is full.
    In every reachable state of a queue built with [c] workers, [c] below
    2^31, [concurrency()] is [c], and [busy()] is true iff the counter
    [running_] equals [c]. *)
Theorem busy_iff_pool_full c s :
  reachable c s -> Z.of_nat c < 2 ^ 31 ->
  length (workers_ (sq s)) = c /\ concurrency (sq s) = Z.of_nat c /\
  (busy (sq s) = true <-> running_ (sq s) = Z.of_nat c).
Proof.
  intros Hs Hc.
  destruct (reachable_by_invariant _ c s Hs) as [Hlen Hup _ _ _ _].
  unfold pool_int in Hup. unfold concurrency, busy. rewrite Hlen in *.
  rewrite int_wrap_small in * by lia. rewrite to_unsigned_small by lia.
  repeat split; try done; rewrite Z.leb_le; lia.
Qed.

End Composition.

(** * Further concrete runs *)

Section FurtherRuns.

Open Scope nat_scope.

Lemma handover_never_rejected_witness :
  exists t rest,
    [1] = t :: rest /\
    mk_system (mk_queue true true 0%Z [1] [Busy 1]) (SAccepted 0)
    = mk_system (set_workers (<[0:=Busy t]> [@Idle nat])
                   (mk_queue true true 0%Z [1] [Idle])) (SAccepted 0).
Proof.
  destruct (handover_never_rejected 1
              (mk_system (mk_queue true true 0%Z [1] [Idle]) (SLock 0)) 0
              (mk_system (mk_queue true true 0%Z [1] [Busy 1]) (SAccepted 0))
              (run_reachable 1 [Client (CallEnqueue 1); Sched; Sched; Sched; Sched]
                 _ eq_refl)
              eq_refl eq_refl) as [_ [[Hempty _]|Hgiven]].
  - discriminate Hempty.
  - exact Hgiven.
Defined.

Lemma scheduler_runs_while_active_witness :
  step Sched (mk_system (mk_queue true false 0%Z [] [@Idle nat]) SWhile) = None
  <-> SWhile = SExit.
Proof.
  exact (proj1 (scheduler_runs_while_active 1
                  (mk_system (mk_queue true false 0%Z [] [Idle]) SWhile)
                  (run_reachable 1 one_task_run _ eq_refl))).
Defined.

Lemma scheduler_exits_once_inactive_witness :
  exists n s', n <= 4 * 1 + 5 /\
    run (replicate n Sched)
        (mk_system (mk_queue false false 0%Z [] [@Idle nat]) SWhile) = Some s' /\
    spc s' = SExit.
Proof.
  exact (proj2 (scheduler_exits_once_inactive 1
                  (mk_system (mk_queue false false 0%Z [] [Idle]) SWhile)
                  (run_reachable 1 [Client CallClear; Deactivate] _ eq_refl)
                  eq_refl)).
Defined.

Lemma running_accounts_for_executors_witness :
  (1 + 0 = 0 + thrown failing_task_run (initial 1))%Z.
Proof.
  exact (running_accounts_for_executors 1 failing_task_run
           (mk_system (mk_queue true false 1%Z [] [Idle]) SWhile) eq_refl).
Defined.

Lemma running_lower_bound_witness :
  (-1 <= running_ (mk_queue true true (-1) [1%nat] [@Done nat]) < 2 ^ 31)%Z.
Proof.
  exact (proj1 (running_lower_bound 1
                  (mk_system (mk_queue true true (-1)%Z [1] [Done]) (SAccepted 0))
                  (run_reachable 1 early_report_run _ eq_refl))).
Defined.

Lemma failed_task_blocks_completion_witness :
  complete (mk_queue true false 1%Z [] [@Idle nat]) = false /\
  notifies (mk_system (mk_queue true false 1%Z [] [@Idle nat]) SWhile) = false.
Proof.
  exact (failed_task_blocks_completion 1
           (mk_system (mk_queue true false 1%Z [] [Busy 0]) SWhile) 0 0
           (mk_system (mk_queue true false 1%Z [] [Done]) SWhile)
           [Work 0]
           (mk_system (mk_queue true false 1%Z [] [Idle]) SWhile)
           (run_reachable 1 (dispatch_first 0) _ eq_refl)
           eq_refl eq_refl eq_refl eq_refl).
Defined.

Lemma notify_only_when_idle_witness :
  waiting_ (@construct nat 1) = [] /\ running_ (@construct nat 1) = 0%Z /\
  Forall (fun w => w = Idle \/ w = Done) (workers_ (@construct nat 1)).
Proof.
  exact (notify_only_when_idle 1 (mk_system (construct 1) SNotify)
           (run_reachable 1 [Sched; Sched; Sched] _ eq_refl) eq_refl).
Defined.

Lemma first_idle_worker_gets_front_task_witness :
  run (replicate (1 + 6) Sched)
      (mk_system (mk_queue true true 1%Z [7; 8] [Busy 5; Idle; Idle]) SWhile)
  = Some (mk_system (mk_queue true true 2%Z [8] [Busy 5; Busy 7; Idle])
                    (SElseBusy 1)).
Proof.
  apply (first_idle_worker_gets_front_task
           (mk_system (mk_queue true true 1%Z [7; 8] [Busy 5; Idle; Idle]) SWhile)
           1 7 [8]); try reflexivity.
  intros [|k] w Hk Hw; [injection Hw as <-; reflexivity | lia].
Defined.

Lemma stale_flag_cleared_witness :
  run (replicate (0 + 5) Sched)
      (mk_system (enqueue_range [] (@construct nat 2)) SWhile)
  = Some (mk_system (construct 2) SWhile).
Proof.
  apply (stale_flag_cleared
           (mk_system (enqueue_range [] (@construct nat 2)) SWhile) 0);
    try reflexivity.
  intros k w Hk. lia.
Defined.

Lemma pass_without_idle_worker_changes_nothing_witness :
  run (replicate (2 + 4) Sched)
      (mk_system (mk_queue true true 0%Z [7] [Done; Ran]) SWhile)
  = Some (mk_system (mk_queue true true 0%Z [7] [Done; Ran]) SWhile).
Proof.
  apply (pass_without_idle_worker_changes_nothing
           (mk_system (mk_queue true true 0%Z [7] [Done; Ran]) SWhile));
    try reflexivity.
  by repeat constructor.
Defined.

Lemma nothing_started_after_clear_witness :
  waiting_ (mk_queue false false 1%Z [] [Ran; @Idle nat]) = [].
Proof.
  refine (proj1 (nothing_started_after_clear
                   [Sched; Deactivate; Work 0; Sched]
                   (mk_system (clear (mk_queue true true 1%Z [7; 8] [Busy 5; Idle]))
                              (SLock 1))
                   (mk_system (mk_queue false false 1%Z [] [Ran; Idle]) SExit)
                   eq_refl eq_refl _ eq_refl)).
  by repeat constructor.
Defined.

Lemma enqueue_then_try_remove_witness :
  (try_remove 3 (enqueue 3 (mk_queue true true 0%Z [1; 2] [@Idle nat]))).2
  = mk_queue true true 0%Z [1; 2] [Idle].
Proof.
  apply (enqueue_then_try_remove 3 (mk_queue true true 0%Z [1; 2] [@Idle nat]));
    [reflexivity | by repeat constructor | reflexivity].
Defined.

Lemma step_frames_witness :
  waiting_ (mk_queue true false 1%Z [] [Busy 5]) = waiting_ (mk_queue true true 0%Z [5] [Busy 5]) \/
  exists i t, SAccepted 0 = SAccepted i /\
    waiting_ (mk_queue true true 0%Z [5] [Busy 5])
    = t :: waiting_ (mk_queue true false 1%Z [] [Busy 5]).
Proof.
  exact (step_frames 1
           (mk_system (mk_queue true true 0%Z [5] [Busy 5]) (SAccepted 0)) Sched
           (mk_system (mk_queue true false 1%Z [] [Busy 5]) SWhile)
           (run_reachable 1 [Client (CallEnqueue 5); Sched; Sched; Sched; Sched; Sched]
              _ eq_refl)
           eq_refl).
Defined.

Lemma busy_iff_pool_full_witness :
  busy (mk_queue true true 1%Z [3; 1] [Busy 2]) = true <-> 1%Z = Z.of_nat 1.
Proof.
  refine (proj2 (proj2 (busy_iff_pool_full 1
           (mk_system (mk_queue true true 1%Z [3; 1] [Busy 2]) (SElseBusy 0))
           (run_reachable 1 range_after_single_run _ eq_refl) _))).
  reflexivity.
Defined.

End FurtherRuns.

(** * A rejected hand-over, and waiting after a clear *)

Section RejectedHandover.

Context {Task : Type} `{TaskType Task}.
Implicit Types (q : parallel_task_queue Task) (s : system Task)
  (w : task_thread Task) (ws : list (task_thread Task)) (l : label Task)
  (t : Task) (rest : list Task).

(** Steps of worker threads alone leave the scheduler where it is and the
    waiting queue, the flag and [active_] as they are. *)
Lemma worker_run_frame (ks : list nat) s s1 :
  run (Work <$> ks) s = Some s1 ->
  spc s1 = spc s /\ waiting_ (sq s1) = waiting_ (sq s) /\
  hasWaiting_ (sq s1) = hasWaiting_ (sq s) /\
  active_ (sq s1) = active_ (sq s).
Proof.
  revert s. induction ks as [|k ks IH]; intros s Hrun; simpl in Hrun.
  - by simplify_eq.
  - destruct (worker_step k (sq s)) as [q'|] eqn:Hw; simpl in Hrun; [|done].
    destruct (worker_step_frame _ _ _ Hw) as (_ & Hq & Hf & Ha).
    destruct (IH _ Hrun) as (Hpc1 & Hq1 & Hf1 & Ha1). simpl in *.
    by rewrite Hpc1, Hq1, Hf1, Ha1.
Qed.

(** From worker [i] on no worker is available: the range-for runs to its
    end and [try_assign_tasks] returns. *)
Lemma scan_past_rest n : forall i s,
  (length (workers_ (sq s)) = i + n)%nat -> spc s = SFor i ->
  (forall k w, (i <= k)%nat -> workers_ (sq s) !! k = Some w ->
               available w = false) ->
  run (replicate (S n) Sched) s = Some (mk_system (sq s) SWhile).
Proof.
  induction n as [|n IH]; intros i s Hlen Hpc Hbusy.
  - simpl. unfold schedule_step. rewrite Hpc.
    rewrite lookup_ge_None_2 by lia. done.
  - assert (is_Some (workers_ (sq s) !! i)) as [w Hw].
    { apply lookup_lt_is_Some. lia. }
    pose proof (Hbusy i w ltac:(lia) Hw) as Hav.
    change (replicate (S (S n)) Sched) with (@Sched Task :: replicate (S n) Sched).
    simpl run. unfold schedule_step at 1. rewrite Hpc, Hw, Hav.
    apply (IH (S i) (mk_system (sq s) (SFor (S i)))); simpl; [lia | done |].
    intros k w' Hk. apply Hbusy. lia.
Qed.

(** Lines 229-240 at an idle worker: the hand-over, then count and pop. *)
Lemma handover_steps s j t rest :
  spc s = SLock j -> workers_ (sq s) !! j = Some Idle ->
  waiting_ (sq s) = t :: rest ->
  run [Sched; Sched] s = Some (handed_over j t rest (sq s)).
Proof.
  intros Hpc Hw Hq. simpl. unfold schedule_step at 1, assign_front.
  rewrite Hpc, Hw, Hq. simpl.
  unfold schedule_step, count_and_pop. simpl. rewrite Hq. simpl.
  by destruct rest.
Qed.

(** C2. When, in the locked body of the scheduler's loop, worker [i]
    rejects the front task [t], the step changes nothing in the queue
    object: [t] is still at the front, once, and no worker holds it.  The
    scheduler then tries [t] again.  If a later worker [j] of the same pass
    is the next available one, the scheduler's following steps walk to it
    and hand exactly [t] to it, count it and pop it.  If no later worker is
    available, the pass ends with the queue object still unchanged, and
    (the queue being active with its flag set) once worker threads have
    made a worker available and [busy()] is false, the scheduler's next
    pass hands exactly [t] to the first available worker. *)
Theorem rejected_task_stays_in_front s i w t rest :
  spc s = SLock i -> workers_ (sq s) !! i = Some w ->
  waiting_ (sq s) = t :: rest -> try_assign w t = None ->
  schedule_step s = Some (mk_system (sq s) (SFor (S i))) /\
  (forall j,
     (i < j)%nat -> workers_ (sq s) !! j = Some Idle ->
     (forall k w', (i < k < j)%nat -> workers_ (sq s) !! k = Some w' ->
                   available w' = false) ->
     run (replicate (j - i + 3) Sched) s
     = Some (handed_over j t rest (sq s))) /\
  (active_ (sq s) = true -> hasWaiting_ (sq s) = true ->
   (forall k w', (i < k)%nat -> workers_ (sq s) !! k = Some w' ->
                 available w' = false) ->
   run (replicate (length (workers_ (sq s)) - i + 1) Sched) s
   = Some (mk_system (sq s) SWhile) /\
   forall ks s1 j,
     run (Work <$> ks) (mk_system (sq s) SWhile) = Some s1 ->
     busy (sq s1) = false -> workers_ (sq s1) !! j = Some Idle ->
     (forall k w', (k < j)%nat -> workers_ (sq s1) !! k = Some w' ->
                   available w' = false) ->
     run (replicate (length (workers_ (sq s)) - i + 1) Sched
          ++ (Work <$> ks) ++ replicate (j + 6) Sched) s
     = Some (handed_over j t rest (sq s1))).
Proof.
  intros Hpc Hw Hq Hrej.
  assert (Hstep : schedule_step s = Some (mk_system (sq s) (SFor (S i)))).
  { unfold schedule_step, assign_front. by rewrite Hpc, Hw, Hq, Hrej. }
  assert (Hone : run [Sched] s = Some (mk_system (sq s) (SFor (S i)))).
  { simpl. by rewrite Hstep. }
  split; [done|]. split.
  - intros j Hij Hidle Hbusy.
    replace (j - i + 3)%nat with (1 + (S (j - S i) + 2))%nat by lia.
    rewrite (replicate_add 1), (run_app_Some _ _ _ _ Hone).
    rewrite (replicate_add (S (j - S i))).
    rewrite (run_app_Some _ _ _ (mk_system (sq s) (SLock j))).
    + by apply (handover_steps (mk_system (sq s) (SLock j))).
    + apply (scan_to_first_idle (j - S i) (S i) j
               (mk_system (sq s) (SFor (S i)))); simpl; [lia|done|done|].
      intros k w' Hk. apply Hbusy. lia.
  - intros Ha Hf Hbusy.
    pose proof (lookup_lt_Some _ _ _ Hw) as Hlt.
    assert (Hpass : run (replicate (length (workers_ (sq s)) - i + 1) Sched) s
                    = Some (mk_system (sq s) SWhile)).
    { replace (length (workers_ (sq s)) - i + 1)%nat
        with (1 + S (length (workers_ (sq s)) - S i))%nat by lia.
      rewrite (replicate_add 1), (run_app_Some _ _ _ _ Hone).
      apply (scan_past_rest _ (S i) (mk_system (sq s) (SFor (S i)))); simpl;
        [lia | done |].
      intros k w' Hk. apply Hbusy. lia. }
    split; [done|].
    intros ks s1 j Hks Hb1 Hidle1 Hbusy1.
    destruct (worker_run_frame ks _ s1 Hks) as (Hpc1 & Hq1 & Hf1 & Ha1).
    simpl in Hpc1, Hq1, Hf1, Ha1.
    rewrite (run_app_Some _ _ _ _ Hpass), (run_app_Some _ _ _ _ Hks).
    replace (j + 6)%nat with (3 + (S j + 2))%nat by lia.
    rewrite (replicate_add 3).
    rewrite (run_app_Some _ _ _ (mk_system (sq s1) (SFor 0)));
      [|apply (enter_pass s1); congruence].
    rewrite (replicate_add (S j)).
    rewrite (run_app_Some _ _ _ (mk_system (sq s1) (SLock j))).
    + apply (handover_steps (mk_system (sq s1) (SLock j))); simpl;
        [done | done | congruence].
    + apply (scan_to_first_idle j 0 j (mk_system (sq s1) (SFor 0))); simpl;
        [lia | done | done |].
      intros k w' Hk. apply Hbusy1. lia.
Qed.

(** C9 (amended). [clear()] empties the waiting queue and clears the
    has-waiting flag; the running count, the workers with the tasks they
    hold, and the active flag are as before.  When [running()] is zero, a
    [wait()] that follows at once returns at its first evaluation of the
    condition, without blocking; this is so in every state that a run
    reaches with the lock free, no executor in flight and no task run that
    exited by an exception. *)
Theorem clear_discards_waiting_only q :
  waiting_ (clear q) = [] /\ waiting (clear q) = 0 /\
  hasWaiting_ (clear q) = false /\ empty (clear q) = true /\
  running_ (clear q) = running_ q /\ workers_ (clear q) = workers_ q /\
  active_ (clear q) = active_ q /\
  (running q = 0 ->
   forall later, wait ((clear q, clear q) :: later) = Some 0%nat) /\
  (forall c (ls : list (label Task)) pc,
     run ls (initial c) = Some (mk_system q pc) -> lock_held pc = false ->
     in_flight (workers_ q) = 0 -> thrown ls (initial c) = 0 ->
     forall later, wait ((clear q, clear q) :: later) = Some 0%nat).
Proof.
  assert (Hwait : running q = 0 ->
            forall later, wait ((clear q, clear q) :: later) = Some 0%nat).
  { intros Hr later. simpl. rewrite wait_condition_complete.
    assert (complete (clear q) = true) as ->; [|done].
    apply complete_iff. by split. }
  split_and!; try done.
  intros c ls pc Hrun Hfree Hin Hth. apply Hwait.
  destruct (accounting_run c ls (initial c) _ (invariant_initial c) Hrun)
    as [_ Hacc].
  simpl in Hacc. rewrite in_flight_replicate in Hacc.
  assert (pending pc = 0) by (by destruct pc).
  unfold running. assert (running_ q = 0) as -> by lia. done.
Qed.

End RejectedHandover.

Section RevisedRuns.

Open Scope nat_scope.

Lemma rejected_task_stays_in_front_witness :
  run (replicate (1 - 0 + 3) Sched)
      (mk_system (mk_queue true true 1%Z [7; 8] [Busy 5; Idle]) (SLock 0))
  = Some (mk_system (mk_queue true true 2%Z [8] [Busy 5; Busy 7]) (SElseBusy 1))
  /\
  run (replicate (1 - 0 + 1) Sched ++ (Work <$> [0; 0; 0]) ++ replicate (0 + 6) Sched)
      (mk_system (mk_queue true true 1%Z [7] [Busy 5]) (SLock 0))
  = Some (mk_system (mk_queue true false 1%Z [] [Busy 7]) SWhile).
Proof.
  split.
  - apply (rejected_task_stays_in_front
             (mk_system (mk_queue true true 1%Z [7; 8] [Busy 5; Idle]) (SLock 0))
             0 (Busy 5) 7 [8] eq_refl eq_refl eq_refl eq_refl); [lia | reflexivity |].
    intros k w' Hk. lia.
  - refine (proj2 (proj2 (proj2 (rejected_task_stays_in_front
             (mk_system (mk_queue true true 1%Z [7] [Busy 5]) (SLock 0))
             0 (Busy 5) 7 [] eq_refl eq_refl eq_refl eq_refl)) eq_refl eq_refl _)
             [0; 0; 0]
             (mk_system (mk_queue true true 0%Z [7] [Idle]) SWhile) 0
             eq_refl eq_refl eq_refl _).
    + intros [|k] w' Hk Hw'; [lia | discriminate Hw'].
    + intros k w' Hk. lia.
Defined.

(** C8. [wait()] does re-evaluate its condition after every wakeup, but it
    loads [hasWaiting_] and [running_] one after the other without
    [enqueueMtx_].  Task 1 is running on the only worker and nothing waits
    when [wait()] loads the flag (clear); then task 2 is enqueued and task 1
    reports; then [wait()] loads the count (zero) and returns at once.
    [complete()] is false in every state from the first load to the second,
    and task 2 is still waiting when [wait()] returns. *)
Theorem wait_returns_with_task_waiting :
  run (dispatch_first 1) (initial 1)
  = Some (mk_system (mk_queue true false 1%Z [] [Busy 1]) SWhile) /\
  run [Client (CallEnqueue 2); Work 0; Work 0]
      (mk_system (mk_queue true false 1%Z [] [Busy 1]) SWhile)
  = Some (mk_system (mk_queue true true 0%Z [2] [Done]) SWhile) /\
  Forall (fun s => complete (sq s) = false)
         (trace [Client (CallEnqueue 2); Work 0; Work 0]
                (mk_system (mk_queue true false 1%Z [] [Busy 1]) SWhile)) /\
  wait [(mk_queue true false 1%Z [] [Busy 1],
         mk_queue true true 0%Z [2] [@Done nat])] = Some 0 /\
  waiting (mk_queue true true 0%Z [2] [@Done nat]) = 1%Z.
Proof. split_and!; try reflexivity. by repeat constructor. Qed.

(** After the failing task 0 has run, the only worker is idle again and no
    executor is in flight, but the counter stays at 1: [wait()] after
    [clear()] finds its condition true however often it is woken. *)
Lemma clear_then_wait_counterexample :
  ~ (forall s : system nat, reachable 1 s -> lock_held (spc s) = false ->
       in_flight (workers_ (sq s)) = 0%Z ->
       wait [(clear (sq s), clear (sq s))] = Some 0) /\
  (forall n, wait (replicate n (clear (mk_queue true false 1%Z [] [@Idle nat]),
                                clear (mk_queue true false 1%Z [] [@Idle nat])))
             = None).
Proof.
  split.
  - intros Hclaim.
    specialize (Hclaim (mk_system (mk_queue true false 1%Z [] [Idle]) SWhile)
                  (run_reachable 1 failing_task_run _ eq_refl) eq_refl eq_refl).
    discriminate Hclaim.
  - induction n as [|n IH]; [done|].
    change (replicate (S n) ?x) with (x :: replicate n x).
    cbn [wait]. rewrite IH. reflexivity.
Qed.

Lemma clear_discards_waiting_only_witness :
  wait [(clear (mk_queue true false 0%Z [] [@Idle nat]),
         clear (mk_queue true false 0%Z [] [@Idle nat]))] = Some 0.
Proof.
  refine (proj2 (proj2 (proj2 (proj2 (proj2 (proj2 (proj2 (proj2
            (clear_discards_waiting_only (mk_queue true false 0%Z [] [@Idle nat])))))))))
            1 one_task_run SWhile eq_refl eq_refl eq_refl eq_refl []).
Defined.

End RevisedRuns.
